(** * MDP inventory control: the solver of [mdp_solver.py]

    A shallow embedding of class [MDPInventorySolver] and the properties of
    its demand, reward and transition models, of the Bellman update, of value
    iteration and of the (s, S) policy summary.

    Numbers.  Inventory levels, order quantities, demands and array indices
    are Python integers: [Z].  The costs, the demand parameters, the discount
    factor and every value the solver computes are Python/numpy floats; they
    are idealised here as real numbers ([R]): [+], [*], [<], [abs], [max]
    are the exact operations and rounding is not modelled.  The single
    non-finite float the program writes down, [float('-inf')], has its own
    constructor.  [scipy.stats.norm.pdf] is the normal density; it is a
    number only for a positive scale (scipy returns [nan] otherwise), so the
    theorems that say which values the Bellman update yields assume
    [demand_std > 0].  Where a statement is about the binary64 results
    themselves (the two summations of the transition model), the summations
    are written a second time over IEEE binary64 floats.

    Effects.  The numpy arrays are lists, read and written by index with
    numpy's index rule (a negative index counts from the end, anything else
    out of range raises [IndexError]).  Methods that read or write the arrays
    return a [result]: either a value or the Python exception raised.

    Randomness.  [simulate_episode] draws its demands from
    [np.random.normal]; the draws are an argument of the model, the [k]-th
    one being the value the [k]-th call returns.

    Left out: [export_results] and [main], which write a file and print. *)

From Stdlib Require Import Floats.PrimFloat.
From Stdlib Require Import Reals Lra Lia ZArith List.
From stdpp Require Import base list numbers strings gmap.
Import ListNotations.

Open Scope Z_scope.
Open Scope R_scope.

(** ** Exceptions and the error monad *)

(** The exceptions the solver can raise.  [NonFinite] is not a Python
    exception: it marks the one place where a float that is not a real
    number ([-inf]) would be stored in a table; it is shown unreachable. *)
Inductive exn : Type :=
  | IndexError
  | ValueError
  | UnboundLocalError
  | NonFinite.

Inductive result (A : Type) : Type :=
  | Ok (a : A)
  | Raise (e : exn).
Arguments Ok {A} a.
Arguments Raise {A} e.

#[global] Instance result_ret : MRet result := fun A a => Ok a.
#[global] Instance result_bind : MBind result := fun A B f m =>
  match m with
  | Ok a => f a
  | Raise e => Raise e
  end.

(** [for x in l: body], threading the loop-carried variables [s]. *)
Fixpoint for_each {S A : Type} (l : list A) (body : S -> A -> result S) (s : S)
  : result S :=
  match l with
  | [] => Ok s
  | x :: l' => s' ← body s x; for_each l' body s'
  end.

(** [range(n)] *)
Definition range (n : Z) : list Z := seqZ 0 n.

(** ** Floats as reals *)

#[global] Instance Rlt_decision : RelDecision Rlt := Rlt_dec.
#[global] Instance Rle_decision : RelDecision Rle := Rle_dec.
#[global] Instance R_inhabited : Inhabited R := populate 0.

(** [int(x)]: truncation towards zero. *)
Definition py_int (x : R) : Z :=
  if decide (0 <= x) then Int_part x else (- Int_part (- x))%Z.

(** A float that may be [float('-inf')]. *)
Inductive xfloat : Type :=
  | NegInf
  | Fin (r : R).

(** [e > m] where [m] may be [-inf]. *)
Definition gt_xfloat (e : R) (m : xfloat) : bool :=
  match m with
  | NegInf => true
  | Fin r => bool_decide (r < e)
  end.

(** [scipy.stats.norm.pdf(x, loc, scale)] for [scale > 0]: the standard
    normal density at [(x - loc) / scale], divided by [scale].  For
    [scale <= 0] scipy returns [nan], which no real number stands for: there
    the value below means nothing, and the theorems about values exclude it
    by the hypothesis [0 < demand_std]. *)
Definition std_norm_pdf (y : R) : R := exp (- (y * y) / 2) / sqrt (2 * PI).
Definition norm_pdf (x loc scale : R) : R :=
  std_norm_pdf ((x - loc) / scale) / scale.

(** ** numpy arrays *)

(** The position an index denotes in an array of length [len]. *)
Definition np_index (len : nat) (i : Z) : result nat :=
  if decide (0 <= i < Z.of_nat len)%Z then Ok (Z.to_nat i)
  else if decide (- Z.of_nat len <= i < 0)%Z then Ok (Z.to_nat (Z.of_nat len + i))
  else Raise IndexError.

(** [a[i]] *)
Definition getitem {A : Type} (a : list A) (i : Z) : result A :=
  k ← np_index (length a) i;
  match a !! k with
  | Some x => Ok x
  | None => Raise IndexError
  end.

(** [a[i] = x] *)
Definition setitem {A : Type} (a : list A) (i : Z) (x : A) : result (list A) :=
  k ← np_index (length a) i;
  Ok (<[k:=x]> a).

(** [m[i, j] = x] *)
Definition setitem2 {A : Type} (m : list (list A)) (i j : Z) (x : A)
  : result (list (list A)) :=
  row ← getitem m i;
  row' ← setitem row j x;
  setitem m i row'.

(** [np.max(a)] and [np.min(a)]: [ValueError] on an empty array. *)
Definition np_max (a : list R) : result R :=
  match a with
  | [] => Raise ValueError
  | x :: a' => Ok (foldl Rmax x a')
  end.
Definition np_min (a : list R) : result R :=
  match a with
  | [] => Raise ValueError
  | x :: a' => Ok (foldl Rmin x a')
  end.

(** [max(l)] on a list of integers. *)
Definition py_max (l : list Z) : result Z :=
  match l with
  | [] => Raise ValueError
  | x :: l' => Ok (foldl Z.max x l')
  end.

(** [np.mean(l)] on a non-empty list of integers. *)
Definition np_mean (l : list Z) : R :=
  IZR (foldr Z.add 0%Z l) / INR (length l).

(** ** The solver *)

Record config : Type := {
  max_inventory : Z;
  order_cost : R;
  holding_cost : R;
  stockout_cost : R;
  selling_price : R;
  demand_mean : R;
  demand_std : R;
  gamma : R
}.

(** The defaults of [config.get] in [__init__] (those of [main] as well). *)
Definition default_config : config := {|
  max_inventory := 100;
  order_cost := 50;
  holding_cost := 2;
  stockout_cost := 20;
  selling_price := 15;
  demand_mean := 10;
  demand_std := 3;
  gamma := 95 / 100
|}.

Record solver : Type := {
  conf : config;
  states : list Z;
  value_function : list R;
  policy : list Z;
  q_values : list (list R)
}.

Definition set_value_function (sv : solver) (vf : list R) : solver :=
  {| conf := conf sv; states := states sv; value_function := vf;
     policy := policy sv; q_values := q_values sv |}.
Definition set_policy (sv : solver) (p : list Z) : solver :=
  {| conf := conf sv; states := states sv; value_function := value_function sv;
     policy := p; q_values := q_values sv |}.
Definition set_q_values (sv : solver) (q : list (list R)) : solver :=
  {| conf := conf sv; states := states sv; value_function := value_function sv;
     policy := policy sv; q_values := q |}.

(** The tables of [__init__], lines 29-32: all zero. *)
Definition zeroed (c : config) : solver :=
  let sts := range (max_inventory c + 1) in
  {| conf := c;
     states := sts;
     value_function := replicate (length sts) 0;
     policy := replicate (length sts) 0%Z;
     q_values := replicate (length sts)
                   (replicate (Z.to_nat (max_inventory c + 1)) 0) |}.

(** [__init__]: [np.zeros] refuses the negative dimension that
    [max_inventory + 1] may be. *)
Definition init (c : config) : result solver :=
  if decide (max_inventory c + 1 < 0)%Z then Raise ValueError
  else Ok (zeroed c).

Definition demand_probability (c : config) (d : Z) : R :=
  if decide (d < 0)%Z then 0
  else norm_pdf (IZR d) (demand_mean c) (demand_std c).

Definition immediate_reward (c : config) (state action demand : Z) : R :=
  let sales := Z.min state demand in
  let revenue := IZR sales * selling_price c in
  let holding := IZR state * holding_cost c in
  let ordering :=
    if decide (action > 0)%Z then order_cost c + IZR (action * 5) else 0 in
  let stockout := IZR (Z.max 0 (demand - state)) * stockout_cost c in
  revenue - holding - ordering - stockout.

(** [int(self.demand_mean + 4 * self.demand_std)] *)
Definition max_demand (c : config) : Z :=
  py_int (demand_mean c + 4 * demand_std c).

(** [max(0, min(self.max_inventory, x))] *)
Definition clamp (c : config) (x : Z) : Z :=
  Z.max 0 (Z.min (max_inventory c) x).

Definition transition_probability (c : config) (state action next_state : Z)
  : R :=
  foldl (fun total_prob d =>
           let resulting_state := clamp c (state + action - d) in
           if decide (resulting_state = next_state)
           then total_prob + demand_probability c d
           else total_prob)
        0 (range (max_demand c + 1)).

(** The inner loop of [bellman_update] (lines 64-71): the expected value of
    ordering [action] in [state]. *)
Definition expected_value (sv : solver) (state action : Z) : result R :=
  let c := conf sv in
  for_each (range (max_demand c + 1))
    (fun expected_value demand =>
       let prob := demand_probability c demand in
       let reward := immediate_reward c state action demand in
       let next_state := clamp c (state + action - demand) in
       v ← getitem (value_function sv) next_state;
       Ok (expected_value + prob * (reward + gamma c * v)))
    0.

(** One turn of the loop over actions (lines 64-77). *)
Definition bellman_step (state : Z) (acc : xfloat * Z * solver) (action : Z)
  : result (xfloat * Z * solver) :=
  let '(max_value, best_action, sv) := acc in
  ev ← expected_value sv state action;
  q ← setitem2 (q_values sv) state action ev;
  let sv := set_q_values sv q in
  if gt_xfloat ev max_value then Ok (Fin ev, action, sv)
  else Ok (max_value, best_action, sv).

Definition bellman_update (sv : solver) (state : Z)
  : result (xfloat * Z * solver) :=
  let c := conf sv in
  let max_action := Z.min (max_inventory c - state) (max_inventory c) in
  for_each (range (max_action + 1)) (bellman_step state) (NegInf, 0%Z, sv).

(** One turn of the loop over states (lines 89-92). *)
Definition sweep_step (acc : R * solver) (state : Z) : result (R * solver) :=
  let '(delta, sv) := acc in
  '(new_value, best_action, sv) ← bellman_update sv state;
  match new_value with
  | NegInf => Raise NonFinite
  | Fin new_value =>
      old ← getitem (value_function sv) state;
      let delta := Rmax delta (Rabs (old - new_value)) in
      vf ← setitem (value_function sv) state new_value;
      let sv := set_value_function sv vf in
      p ← setitem (policy sv) state best_action;
      Ok (delta, set_policy sv p)
  end.

(** One sweep (lines 85-92): [delta = 0], then every state in turn. *)
Definition sweep (sv : solver) : result (R * solver) :=
  for_each (states sv) sweep_step (0, sv).

Record history_entry : Type := {
  h_iteration : Z;
  h_delta : R;
  h_max_value : R;
  h_min_value : R
}.

Record convergence : Type := {
  converged : bool;
  iterations : Z;
  final_delta : R;
  history : list history_entry
}.

(** The local variables of [value_iteration] that outlive its loop.  [delta]
    and [iteration] are bound by the first turn of the loop only. *)
Record vi_locals : Type := {
  l_delta : option R;
  l_iteration : option Z;
  l_history : list history_entry;
  l_solver : solver
}.

(** [for iteration in its: ...; if delta < epsilon: break] (lines 84-102).
    The copy [old_value] of line 86 is never read and has no counterpart. *)
Fixpoint vi_loop (epsilon : R) (its : list Z) (st : vi_locals)
  : result vi_locals :=
  match its with
  | [] => Ok st
  | iteration :: its' =>
      '(delta, sv) ← sweep (l_solver st);
      mx ← np_max (value_function sv);
      mn ← np_min (value_function sv);
      let entry := {| h_iteration := iteration + 1; h_delta := delta;
                      h_max_value := mx; h_min_value := mn |} in
      let st' := {| l_delta := Some delta; l_iteration := Some iteration;
                    l_history := l_history st ++ [entry]; l_solver := sv |} in
      if bool_decide (delta < epsilon) then Ok st'
      else vi_loop epsilon its' st'
  end.

(** Reading a local variable that may not have been assigned. *)
Definition local {A : Type} (v : option A) : result A :=
  match v with
  | Some x => Ok x
  | None => Raise UnboundLocalError
  end.

Definition value_iteration (sv : solver) (epsilon : R) (max_iterations : Z)
  : result (convergence * solver) :=
  st ← vi_loop epsilon (range max_iterations)
         {| l_delta := None; l_iteration := None; l_history := [];
            l_solver := sv |};
  delta ← local (l_delta st);
  iteration ← local (l_iteration st);
  Ok ({| converged := bool_decide (delta < epsilon);
         iterations := iteration + 1;
         final_delta := delta;
         history := l_history st |}, l_solver st).

(** One turn of the loop of [compute_s_S_policy] (lines 115-118). *)
Definition s_S_step (sv : solver) (acc : list Z * list Z) (state : Z)
  : result (list Z * list Z) :=
  let '(reorder_points, order_up_to) := acc in
  p ← getitem (policy sv) state;
  if decide (p > 0)%Z then
    p' ← getitem (policy sv) state;
    Ok (reorder_points ++ [state], order_up_to ++ [(state + p')%Z])
  else Ok (reorder_points, order_up_to).

Definition compute_s_S_policy (sv : solver) : result (Z * Z) :=
  '(reorder_points, order_up_to) ← for_each (states sv) (s_S_step sv) ([], []);
  match reorder_points with
  | _ :: _ =>
      s ← py_max reorder_points;
      let S := match order_up_to with
               | _ :: _ => py_int (np_mean order_up_to)
               | [] => (max_inventory (conf sv) / 2)%Z
               end in
      Ok (s, S)
  | [] =>
      Ok ((max_inventory (conf sv) / 3)%Z, (2 * max_inventory (conf sv) / 3)%Z)
  end.

(** ** The transition model in binary64 *)

(** The demand and transition models and the two summations that use them,
    written over IEEE binary64 ([float]) with every addition and product in
    the order the loops make them.  [pdf d] stands for the float
    [norm.pdf(d, demand_mean, demand_std)], which is not among the primitive
    operations; [max_inv] and [max_dem] are [max_inventory] and
    [int(demand_mean + 4 * demand_std)]. *)
Definition demand_probability_b64 (pdf : Z -> float) (d : Z) : float :=
  if decide (d < 0)%Z then 0%float else pdf d.

Definition transition_probability_b64 (pdf : Z -> float) (max_inv max_dem : Z)
    (state action next_state : Z) : float :=
  foldl (fun total_prob d =>
           let resulting_state :=
             Z.max 0 (Z.min max_inv (state + action - d)) in
           if decide (resulting_state = next_state)
           then (total_prob + demand_probability_b64 pdf d)%float
           else total_prob)
        0%float (range (max_dem + 1)).

(** The summation [bellman_update] makes inline (lines 67-71), for the value
    term alone: the sum over the demands of [prob * V[next_state]]. *)
Definition inline_sum_b64 (pdf : Z -> float) (max_inv max_dem : Z)
    (V : Z -> float) (state action : Z) : float :=
  foldl (fun acc d =>
           let prob := demand_probability_b64 pdf d in
           let next_state := Z.max 0 (Z.min max_inv (state + action - d)) in
           (acc + prob * V next_state)%float)
        0%float (range (max_dem + 1)).

(** The same expectation through the transition model: the sum over
    [next_state] in [0..max_inventory] of
    [transition_probability(state, action, next_state) * V[next_state]]. *)
Definition model_sum_b64 (pdf : Z -> float) (max_inv max_dem : Z)
    (V : Z -> float) (state action : Z) : float :=
  foldl (fun acc next_state =>
           (acc + transition_probability_b64 pdf max_inv max_dem
                    state action next_state * V next_state)%float)
        0%float (range (max_inv + 1)).

(** [norm.pdf(d, 5, 0.25)] for [d = 0..6], the truncated support of a demand
    of mean 5 and standard deviation 0.25 ([int(5 + 4 * 0.25) = 6]):
    [exp(-((d - 5) / 0.25)^2 / 2) / sqrt(2 pi) / 0.25] in binary64. *)
Definition narrow_demand_pdf (d : Z) : float :=
  match d with
  | 0%Z => 0x1.1928c553065a4p-288%float
  | 1%Z => 0x1.01a73820dac40p-184%float
  | 2%Z => 0x1.bdc9558403b05p-104%float
  | 3%Z => 0x1.6c0df3a094835p-46%float
  | 4%Z => 0x1.18a98e2c0b4b5p-11%float
  | 5%Z => 0x1.9884533d43651p+0%float
  | 6%Z => 0x1.18a98e2c0b4b5p-11%float
  | _ => 0%float
  end.

(** A value table over the states [0..5]: about [1.126e308] at state 0,
    about [-1.079e308] at state 1 and 0 elsewhere, all finite. *)
Definition steep_value_table (s : Z) : float :=
  match s with
  | 0%Z => 0x1.40ccp+1023%float
  | 1%Z => (- 0x1.3333p+1023)%float
  | _ => 0%float
  end.

(** A standard deviation numpy refuses. *)
Definition negative_std_config : config := {|
  max_inventory := 10;
  order_cost := 50;
  holding_cost := 2;
  stockout_cost := 20;
  selling_price := 15;
  demand_mean := 10;
  demand_std := -1;
  gamma := 95 / 100
|}.

(** ** The simulation *)

(** [self.transport_costs], lines 16-21: a dictionary that is never
    modified. *)
Definition transport_costs : gmap string Z :=
  list_to_map [("truck"%string, 100%Z); ("ship"%string, 50%Z);
               ("rail"%string, 75%Z); ("air"%string, 200%Z)].

(** What [simulate_episode] can raise: the exceptions of the solver, a
    [KeyError] of the transport dictionary and a [ZeroDivisionError]. *)
Inductive episode_exn : Type :=
  | SolverError (e : exn)
  | KeyError
  | ZeroDivisionError.

Inductive outcome (A : Type) : Type :=
  | Done (a : A)
  | Fail (e : episode_exn).
Arguments Done {A} a.
Arguments Fail {A} e.

#[global] Instance outcome_ret : MRet outcome := fun A a => Done a.
#[global] Instance outcome_bind : MBind outcome := fun A B f m =>
  match m with
  | Done a => f a
  | Fail e => Fail e
  end.

Definition lift {A : Type} (r : result A) : outcome A :=
  match r with
  | Ok a => Done a
  | Raise e => Fail (SolverError e)
  end.

(** [d[k]] on a dictionary. *)
Definition dict_get {A : Type} (d : gmap string A) (k : string) : outcome A :=
  match d !! k with
  | Some x => Done x
  | None => Fail KeyError
  end.

Fixpoint episode_loop {S A : Type} (l : list A) (body : S -> A -> outcome S)
    (s : S) : outcome S :=
  match l with
  | [] => Done s
  | x :: l' => s' ← body s x; episode_loop l' body s'
  end.

(** An entry of the trajectory (lines 142-151). *)
Record step_record : Type := {
  t_step : Z;
  t_state : Z;
  t_action : Z;
  t_demand : Z;
  t_reward : R;
  t_next_state : Z;
  t_transport_mode : string;
  t_transport_cost : Z
}.

Record episode : Type := {
  trajectory : list step_record;
  total_reward : R;
  average_reward : R
}.

(** [np.random.normal(loc, scale)], called for the [k]-th time: numpy refuses
    a negative [scale] with a [ValueError]; otherwise the call returns
    [normal k]. *)
Definition np_random_normal (normal : nat -> R) (k : nat) (scale : R)
  : outcome R :=
  if decide (scale < 0) then Fail (SolverError ValueError)
  else Done (normal k).

(** One turn of the loop of [simulate_episode] (lines 135-154).  [normal k]
    is the value of the [k]-th call of [np.random.normal]. *)
Definition episode_step (sv : solver) (normal : nat -> R)
    (transport_mode : string) (acc : list step_record * Z * R) (step : Z)
  : outcome (list step_record * Z * R) :=
  let '(trajectory, state, total_reward) := acc in
  action ← lift (getitem (policy sv) state);
  draw ← np_random_normal normal (Z.to_nat step) (demand_std (conf sv));
  let demand := py_int draw in
  let demand := Z.max 0 demand in
  let reward := immediate_reward (conf sv) state action demand in
  let next_state := clamp (conf sv) (state + action - demand) in
  cost ← dict_get transport_costs transport_mode;
  Done (trajectory ++
          [{| t_step := step; t_state := state; t_action := action;
              t_demand := demand; t_reward := reward;
              t_next_state := next_state;
              t_transport_mode := transport_mode;
              t_transport_cost := cost |}],
        next_state, total_reward + reward).

Definition simulate_episode (sv : solver) (normal : nat -> R)
    (initial_state steps : Z) (transport_mode : string) : outcome episode :=
  '(trajectory, state, total_reward) ←
    episode_loop (range steps) (episode_step sv normal transport_mode)
      ([], initial_state, 0);
  if decide (steps = 0)%Z then Fail ZeroDivisionError
  else Done {| trajectory := trajectory;
               total_reward := total_reward;
               average_reward := total_reward / IZR steps |}.

(** ** Specification vocabulary *)

(** The finite sum of [f d] for [d] in [l]. *)
Definition sum_over (l : list Z) (f : Z -> R) : R :=
  foldr (fun d acc => f d + acc) 0 l.

(** The entry of a value table at a state. *)
Definition value_at (vf : list R) (s : Z) : R := vf !!! Z.to_nat s.

(** The entry of a policy table at a state. *)
Definition policy_at (p : list Z) (s : Z) : Z := p !!! Z.to_nat s.

(** The expected value of action [a] in state [s] as section 4.4 writes it:
    the sum over the truncated demand support of
    [probability(d) * (reward(s,a,d) + gamma * V(clamp(s + a - d)))]. *)
Definition q_value (c : config) (V : Z -> R) (s a : Z) : R :=
  sum_over (range (max_demand c + 1))
    (fun d => demand_probability c d
              * (immediate_reward c s a d + gamma c * V (clamp c (s + a - d)))).

(** The total demand mass on the truncated support. *)
Definition demand_mass (c : config) : R :=
  sum_over (range (max_demand c + 1)) (demand_probability c).

(** The shape [__init__] gives the solver and every method preserves. *)
Record solver_wf (sv : solver) : Prop := {
  wf_capacity : (0 <= max_inventory (conf sv))%Z;
  wf_states : states sv = range (max_inventory (conf sv) + 1);
  wf_value : length (value_function sv) = Z.to_nat (max_inventory (conf sv) + 1);
  wf_policy : length (policy sv) = Z.to_nat (max_inventory (conf sv) + 1);
  wf_q_rows : length (q_values sv) = Z.to_nat (max_inventory (conf sv) + 1);
  wf_q_cols :
    Forall (fun row : list R =>
              length row = Z.to_nat (max_inventory (conf sv) + 1))
           (q_values sv)
}.

(** Every stored action is feasible: [0 <= policy[s] <= max_inventory - s]. *)
Definition policy_feasible (sv : solver) : Prop :=
  forall s : Z, (0 <= s <= max_inventory (conf sv))%Z ->
    (0 <= policy_at (policy sv) s <= max_inventory (conf sv) - s)%Z.

(** The states at which a policy table orders. *)
Definition ordering_states (sv : solver) : list Z :=
  filter (fun s => (policy_at (policy sv) s > 0)%Z) (states sv).

(** The solver after [k] sweeps in a row. *)
Fixpoint sweeps (k : nat) (sv : solver) : result solver :=
  match k with
  | O => Ok sv
  | S k' => '(_, sv') ← sweep sv; sweeps k' sv'
  end.

(** The near-deterministic scenario of section 8: capacity 10, no order and
    holding cost, stockout cost 100, price 1, demand mean 5 and standard
    deviation 0.01. *)
Definition known_value_config : config := {|
  max_inventory := 10;
  order_cost := 0;
  holding_cost := 0;
  stockout_cost := 100;
  selling_price := 1;
  demand_mean := 5;
  demand_std := 1 / 100;
  gamma := 95 / 100
|}.

(** The default economy with a warehouse of capacity 0: one state, one
    action. *)
Definition single_state_config : config := {|
  max_inventory := 0;
  order_cost := 50;
  holding_cost := 2;
  stockout_cost := 20;
  selling_price := 15;
  demand_mean := 10;
  demand_std := 3;
  gamma := 95 / 100
|}.

(** A solver of that scenario whose policy orders up to 5 units. *)
Definition order_up_to_five : solver :=
  set_policy (zeroed known_value_config)
    [5; 4; 3; 2; 1; 0; 0; 0; 0; 0; 0]%Z.

(** Well-formedness of a concrete solver, by evaluation. *)
Ltac wf_by_evaluation :=
  constructor;
  [ simpl; lia | reflexivity | reflexivity | reflexivity | reflexivity
  | repeat constructor ].

(** The value table a sweep reads when it updates state [s]: the states
    below [s] already hold their new value, the others still the old one. *)
Definition in_place_table (old new : list R) (s : Z) : Z -> R :=
  fun s' => if decide (s' < s)%Z then value_at new s' else value_at old s'.

(** The entry of the Q-value table at a state and an action. *)
Definition q_at (q : list (list R)) (s a : Z) : R :=
  (q !!! Z.to_nat s) !!! Z.to_nat a.

(** What the [i]-th entry of a trajectory records: the state, the action the
    policy prescribes there, the [i]-th drawn demand truncated to an integer
    and floored at 0, the reward, the clamped next state and the transport
    mode with its cost. *)
Definition step_consistent (sv : solver) (normal : nat -> R)
    (transport_mode : string) (cost : Z) (i : nat) (e : step_record) : Prop :=
  t_step e = Z.of_nat i
  /\ (0 <= t_state e <= max_inventory (conf sv))%Z
  /\ t_action e = policy_at (policy sv) (t_state e)
  /\ t_demand e = Z.max 0 (py_int (normal i))
  /\ t_reward e
     = immediate_reward (conf sv) (t_state e) (t_action e) (t_demand e)
  /\ t_next_state e
     = clamp (conf sv) (t_state e + t_action e - t_demand e)
  /\ t_transport_mode e = transport_mode
  /\ t_transport_cost e = cost.

(** The sum of the rewards of a trajectory. *)
Definition reward_sum (tr : list step_record) : R :=
  foldr (fun e acc => t_reward e + acc) 0 tr.

(** The default economy with a discount factor of 1/4. *)
Definition discounted_config : config := {|
  max_inventory := 100;
  order_cost := 50;
  holding_cost := 2;
  stockout_cost := 20;
  selling_price := 15;
  demand_mean := 10;
  demand_std := 3;
  gamma := 1 / 4
|}.

(** ** Loops and arrays *)

Lemma bind_Ok {A B : Type} (a : A) (f : A -> result B) : (Ok a ≫= f) = f a.
Proof. reflexivity. Qed.

Lemma for_each_app {S A : Type} (l1 l2 : list A) (body : S -> A -> result S) s :
  for_each (l1 ++ l2) body s = (s' ← for_each l1 body s; for_each l2 body s').
Proof.
  revert s. induction l1 as [|x l1 IH]; intros s; simpl; [reflexivity|].
  destruct (body s x) as [s'|e]; simpl; [apply IH | reflexivity].
Qed.

(** A loop whose body never raises is a left fold. *)
Lemma for_each_pure {S A : Type} (g : S -> A -> S) (body : S -> A -> result S)
    (l : list A) (s : S) :
  (forall s x, x ∈ l -> body s x = Ok (g s x)) ->
  for_each l body s = Ok (foldl g s l).
Proof.
  revert s. induction l as [|x l IH]; intros s Hb; simpl; [reflexivity|].
  rewrite Hb by (left). simpl. apply IH. intros s' y Hy. apply Hb. by right.
Qed.

Lemma range_snoc (n : Z) : (0 <= n)%Z -> range (n + 1) = range n ++ [n].
Proof.
  intros Hn. unfold range. rewrite seqZ_app by lia.
  rewrite (seqZ_cons _ 1) by lia.
  rewrite (seqZ_nil _ (Z.pred 1)) by lia.
  f_equal.
Qed.

Lemma elem_of_range (n k : Z) : k ∈ range n <-> (0 <= k < n)%Z.
Proof. unfold range. rewrite elem_of_seqZ. lia. Qed.

Lemma np_index_in_range (len : nat) (i : Z) :
  (0 <= i < Z.of_nat len)%Z -> np_index len i = Ok (Z.to_nat i).
Proof. intros Hi. unfold np_index. rewrite decide_True by done. reflexivity. Qed.

Lemma getitem_in_range `{Inhabited A} (a : list A) (i : Z) :
  (0 <= i < Z.of_nat (length a))%Z -> getitem a i = Ok (a !!! Z.to_nat i).
Proof.
  intros Hi. unfold getitem. rewrite np_index_in_range by done. simpl.
  destruct (lookup_lt_is_Some_2 a (Z.to_nat i)) as [x Hx]; [lia|].
  rewrite Hx. by rewrite (list_lookup_total_correct _ _ _ Hx).
Qed.

Lemma setitem_in_range {A : Type} (a : list A) (i : Z) (x : A) :
  (0 <= i < Z.of_nat (length a))%Z -> setitem a i x = Ok (<[Z.to_nat i:=x]> a).
Proof. intros Hi. unfold setitem. by rewrite np_index_in_range. Qed.

Lemma setitem2_in_range (m : list (list R)) (i j : Z) (x : R) (n : nat) :
  (0 <= i < Z.of_nat (length m))%Z ->
  Forall (fun row : list R => length row = n) m ->
  (0 <= j < Z.of_nat n)%Z ->
  exists m', setitem2 m i j x = Ok m'
             /\ length m' = length m
             /\ Forall (fun row : list R => length row = n) m'.
Proof.
  intros Hi Hrows Hj. unfold setitem2.
  rewrite getitem_in_range by done. simpl.
  assert (Hlen : length (m !!! Z.to_nat i) = n).
  { apply (Forall_lookup_1 _ _ (Z.to_nat i) _ Hrows).
    apply list_lookup_lookup_total_lt. lia. }
  rewrite setitem_in_range by lia. simpl.
  rewrite setitem_in_range by done.
  eexists; split; [reflexivity|]. split.
  - by rewrite length_insert.
  - apply Forall_insert; [done|]. by rewrite length_insert.
Qed.

(** The accumulation [total = 0; total += f(d)] is the finite sum. *)
Lemma foldl_sum_over (f : Z -> R) (l : list Z) (a : R) :
  foldl (fun acc d => acc + f d) a l = a + sum_over l f.
Proof.
  revert a. induction l as [|d l IH]; intros a; simpl; [lra|].
  rewrite IH. unfold sum_over. simpl. lra.
Qed.

Lemma sum_over_ext (f g : Z -> R) (l : list Z) :
  (forall d, d ∈ l -> f d = g d) -> sum_over l f = sum_over l g.
Proof.
  induction l as [|d l IH]; intros Hfg; simpl; [reflexivity|].
  rewrite Hfg by left. rewrite IH; [reflexivity|].
  intros d' Hd'. apply Hfg. by right.
Qed.

Lemma sum_over_plus (f g : Z -> R) (l : list Z) :
  sum_over l (fun d => f d + g d) = sum_over l f + sum_over l g.
Proof.
  induction l as [|d l IH]; simpl; [lra|]. unfold sum_over in *. simpl.
  rewrite IH. lra.
Qed.

Lemma sum_over_scal (k : R) (f : Z -> R) (l : list Z) :
  sum_over l (fun d => k * f d) = k * sum_over l f.
Proof.
  induction l as [|d l IH]; simpl; [lra|]. unfold sum_over in *. simpl.
  rewrite IH. lra.
Qed.

Lemma sum_over_zero (l : list Z) : sum_over l (fun _ => 0) = 0.
Proof. induction l as [|d l IH]; simpl; [reflexivity|]. rewrite IH. lra. Qed.

Lemma sum_over_nonneg (f : Z -> R) (l : list Z) :
  (forall d, d ∈ l -> 0 <= f d) -> 0 <= sum_over l f.
Proof.
  induction l as [|d l IH]; intros Hf; simpl; [lra|].
  assert (0 <= f d) by (apply Hf; left).
  assert (0 <= sum_over l f) by (apply IH; intros; apply Hf; by right).
  unfold sum_over in *. lra.
Qed.

(** Exchanging two finite sums. *)
Lemma sum_over_swap (f : Z -> Z -> R) (l1 l2 : list Z) :
  sum_over l1 (fun x => sum_over l2 (fun y => f x y))
  = sum_over l2 (fun y => sum_over l1 (fun x => f x y)).
Proof.
  induction l1 as [|x l1 IH]; simpl.
  - by rewrite sum_over_zero.
  - rewrite IH. by rewrite <- sum_over_plus.
Qed.

(** Summing over a duplicate-free list a function that vanishes off [k]. *)
Lemma sum_over_single (f : Z -> R) (l : list Z) (k : Z) :
  NoDup l -> k ∈ l -> (forall x, x ∈ l -> x <> k -> f x = 0) ->
  sum_over l f = f k.
Proof.
  induction l as [|x l IH]; intros Hnd Hk Hz; [by apply elem_of_nil in Hk|].
  apply list.NoDup_cons in Hnd as [Hx Hnd]. simpl.
  apply elem_of_cons in Hk as [->|Hk].
  - rewrite (sum_over_ext f (fun _ => 0)).
    + rewrite sum_over_zero. lra.
    + intros y Hy. apply Hz; [by right|]. intros ->. done.
  - rewrite IH; [|done|done|].
    + rewrite Hz; [lra|by left|]. intros ->. done.
    + intros y Hy Hne. apply Hz; [by right|done].
Qed.

(** ** The demand, reward and transition models *)

Lemma clamp_in_range (c : config) (x : Z) :
  (0 <= max_inventory c)%Z -> (0 <= clamp c x <= max_inventory c)%Z.
Proof. unfold clamp. lia. Qed.

Lemma clamp_elem_of_states (c : config) (x : Z) :
  (0 <= max_inventory c)%Z -> clamp c x ∈ range (max_inventory c + 1).
Proof. intros H. apply elem_of_range. pose proof (clamp_in_range c x H). lia. Qed.

(** The conditional accumulation of [transition_probability] is the sum of
    the demand masses of the demands that lead to [next_state]. *)
Lemma foldl_cond_sum_over (P : Z -> Prop) `{forall d, Decision (P d)}
    (f : Z -> R) (l : list Z) (a : R) :
  foldl (fun acc d => if decide (P d) then acc + f d else acc) a l
  = a + sum_over l (fun d => if decide (P d) then f d else 0).
Proof.
  revert a. induction l as [|d l IH]; intros a; simpl; [lra|].
  rewrite IH. unfold sum_over. simpl. destruct (decide (P d)); lra.
Qed.

Lemma transition_probability_sum (c : config) (s a ns : Z) :
  transition_probability c s a ns
  = sum_over (range (max_demand c + 1))
      (fun d => if decide (clamp c (s + a - d) = ns)
                then demand_probability c d else 0).
Proof.
  unfold transition_probability.
  rewrite (foldl_cond_sum_over (fun d => clamp c (s + a - d) = ns)). lra.
Qed.

(** Regrouping the demands by the state they lead to. *)
Lemma transition_regroup (c : config) (V : Z -> R) (s a : Z) :
  (0 <= max_inventory c)%Z ->
  sum_over (range (max_inventory c + 1))
    (fun ns => transition_probability c s a ns * V ns)
  = sum_over (range (max_demand c + 1))
      (fun d => demand_probability c d * V (clamp c (s + a - d))).
Proof.
  intros HM.
  rewrite (sum_over_ext _
    (fun ns => sum_over (range (max_demand c + 1))
       (fun d => V ns * (if decide (clamp c (s + a - d) = ns)
                         then demand_probability c d else 0)))).
  2:{ intros ns _. rewrite transition_probability_sum, sum_over_scal. lra. }
  rewrite sum_over_swap. apply sum_over_ext. intros d _.
  rewrite (sum_over_single _ _ (clamp c (s + a - d))).
  - rewrite decide_True by reflexivity. lra.
  - apply NoDup_seqZ.
  - by apply clamp_elem_of_states.
  - intros ns _ Hne. rewrite decide_False by congruence. lra.
Qed.

Lemma expected_value_ok (sv : solver) (s a : Z) :
  (0 <= max_inventory (conf sv))%Z ->
  length (value_function sv) = Z.to_nat (max_inventory (conf sv) + 1) ->
  expected_value sv s a
  = Ok (q_value (conf sv) (value_at (value_function sv)) s a).
Proof.
  intros HM Hlen. unfold expected_value.
  rewrite (for_each_pure (fun acc d =>
    acc + demand_probability (conf sv) d
          * (immediate_reward (conf sv) s a d
             + gamma (conf sv)
               * value_at (value_function sv) (clamp (conf sv) (s + a - d))))).
  - rewrite foldl_sum_over. unfold q_value. f_equal. lra.
  - intros acc d _.
    pose proof (clamp_in_range (conf sv) (s + a - d) HM).
    rewrite getitem_in_range by lia. reflexivity.
Qed.

(** ** The Bellman update *)

Lemma bellman_step_ok (sv : solver) (s : Z) (mv : xfloat) (ba : Z)
    (q : list (list R)) (a : Z) :
  solver_wf (set_q_values sv q) ->
  (0 <= s <= max_inventory (conf sv))%Z ->
  (0 <= a <= max_inventory (conf sv))%Z ->
  let Q := q_value (conf sv) (value_at (value_function sv)) s in
  exists q',
    bellman_step s (mv, ba, set_q_values sv q) a
    = Ok (if gt_xfloat (Q a) mv then (Fin (Q a), a, set_q_values sv q')
          else (mv, ba, set_q_values sv q'))
    /\ solver_wf (set_q_values sv q').
Proof.
  intros Hwf Hs Ha Q. unfold bellman_step.
  rewrite expected_value_ok by apply Hwf. rewrite bind_Ok.
  change (q_value _ _ s a) with (Q a).
  destruct (setitem2_in_range q s a (Q a)
              (Z.to_nat (max_inventory (conf sv) + 1)))
    as (q' & Hq' & Hlen' & Hrows').
  { pose proof (wf_q_rows _ Hwf) as Hl. simpl in Hl. lia. }
  { apply (wf_q_cols _ Hwf). }
  { lia. }
  change (q_values (set_q_values sv q)) with q.
  rewrite Hq', bind_Ok. exists q'. split.
  - destruct (gt_xfloat (Q a) mv); reflexivity.
  - destruct Hwf. constructor; simpl in *; try done. congruence.
Qed.

Lemma for_each_snoc {S A : Type} (l : list A) (x : A)
    (body : S -> A -> result S) (s : S) :
  for_each (l ++ [x]) body s = (s' ← for_each l body s; body s' x).
Proof.
  rewrite for_each_app. destruct (for_each l body s) as [s'|e]; simpl;
    [|reflexivity].
  destruct (body s' x); reflexivity.
Qed.

(** The scan of the first [n] actions: the running maximum is the value of
    the least action that attains it. *)
Lemma bellman_scan (sv : solver) (s : Z) (n : nat) :
  solver_wf sv ->
  (0 <= s <= max_inventory (conf sv))%Z ->
  (Z.of_nat n <= max_inventory (conf sv) + 1)%Z ->
  let Q := q_value (conf sv) (value_at (value_function sv)) s in
  exists mv ba q,
    for_each (range (Z.of_nat n)) (bellman_step s) (NegInf, 0%Z, sv)
    = Ok (mv, ba, set_q_values sv q)
    /\ solver_wf (set_q_values sv q)
    /\ match n with
       | O => mv = NegInf /\ ba = 0%Z
       | S _ => mv = Fin (Q ba)
                /\ (0 <= ba < Z.of_nat n)%Z
                /\ (forall a, (0 <= a < Z.of_nat n)%Z -> Q a <= Q ba)
                /\ (forall a, (0 <= a < ba)%Z -> Q a < Q ba)
       end.
Proof.
  intros Hwf Hs Hn Q. induction n as [|n IH].
  - exists NegInf, 0%Z, (q_values sv). split; [|split; [|done]].
    + destruct sv; reflexivity.
    + destruct sv; exact Hwf.
  - destruct IH as (mv & ba & q & Hrun & Hwf' & Hacc); [lia|].
    rewrite Nat2Z.inj_succ, <- Z.add_1_r, range_snoc, for_each_snoc by lia.
    rewrite Hrun, bind_Ok.
    destruct (bellman_step_ok sv s mv ba q (Z.of_nat n) Hwf' Hs)
      as (q' & Hstep & Hwf''); [lia|].
    rewrite Hstep. fold Q.
    destruct n as [|n'].
    + destruct Hacc as [-> ->]. simpl.
      exists (Fin (Q 0%Z)), 0%Z, q'. split; [reflexivity|]. split; [done|].
      split; [reflexivity|]. split; [lia|]. split.
      * intros a Ha. replace a with 0%Z by lia. lra.
      * intros a Ha. lia.
    + destruct Hacc as (-> & Hba & Hmax & Hmin). simpl gt_xfloat.
      destruct (bool_decide_reflect (Q ba < Q (Z.of_nat (S n')))) as [Hlt|Hge].
      * exists (Fin (Q (Z.of_nat (S n')))), (Z.of_nat (S n')), q'.
        split; [reflexivity|]. split; [done|]. split; [reflexivity|].
        split; [lia|]. split.
        -- intros a Ha.
           destruct (decide (a = Z.of_nat (S n'))) as [->|Hne]; [lra|].
           specialize (Hmax a). lapply Hmax; [lra|lia].
        -- intros a Ha. specialize (Hmax a). lapply Hmax; [lra|lia].
      * exists (Fin (Q ba)), ba, q'.
        split; [reflexivity|]. split; [done|]. split; [reflexivity|].
        split; [lia|]. split; [|done].
        intros a Ha.
        destruct (decide (a = Z.of_nat (S n'))) as [->|Hne]; [lra|].
        apply Hmax. lia.
Qed.

Lemma bellman_update_spec (sv : solver) (s : Z) :
  solver_wf sv ->
  (0 <= s <= max_inventory (conf sv))%Z ->
  let Q := q_value (conf sv) (value_at (value_function sv)) s in
  exists a q,
    bellman_update sv s = Ok (Fin (Q a), a, set_q_values sv q)
    /\ solver_wf (set_q_values sv q)
    /\ (0 <= a <= max_inventory (conf sv) - s)%Z
    /\ (forall a', (0 <= a' <= max_inventory (conf sv) - s)%Z -> Q a' <= Q a)
    /\ (forall a', (0 <= a' < a)%Z -> Q a' < Q a).
Proof.
  intros Hwf Hs Q. unfold bellman_update.
  rewrite Z.min_l by lia.
  destruct (bellman_scan sv s (Z.to_nat (max_inventory (conf sv) - s + 1)))
    as (mv & ba & q & Hrun & Hwf' & Hacc); [done|done|lia|].
  rewrite Z2Nat.id in Hrun by lia.
  destruct (Z.to_nat (max_inventory (conf sv) - s + 1)) as [|k] eqn:Hk; [lia|].
  destruct Hacc as (-> & Hba & Hmax & Hmin).
  exists ba, q. split; [exact Hrun|]. split; [done|]. split; [lia|].
  split; [|done]. intros a' Ha'. apply Hmax. lia.
Qed.

(** ** Value iteration *)

Lemma value_at_insert (vf : list R) (s s' : Z) (x : R) :
  (0 <= s < Z.of_nat (length vf))%Z -> (0 <= s')%Z ->
  value_at (<[Z.to_nat s:=x]> vf) s'
  = if decide (s' = s) then x else value_at vf s'.
Proof.
  intros Hs Hs'. unfold value_at. destruct (decide (s' = s)) as [->|Hne].
  - apply list_lookup_total_insert_eq. lia.
  - apply list_lookup_total_insert_ne. lia.
Qed.

Lemma policy_at_insert (p : list Z) (s s' : Z) (x : Z) :
  (0 <= s < Z.of_nat (length p))%Z -> (0 <= s')%Z ->
  policy_at (<[Z.to_nat s:=x]> p) s'
  = if decide (s' = s) then x else policy_at p s'.
Proof.
  intros Hs Hs'. unfold policy_at. destruct (decide (s' = s)) as [->|Hne].
  - apply list_lookup_total_insert_eq. lia.
  - apply list_lookup_total_insert_ne. lia.
Qed.

(** One state of a sweep: the Bellman update is stored in both tables and
    [delta] takes the change of the value into account. *)
Lemma sweep_step_ok (sv : solver) (delta : R) (s : Z) :
  solver_wf sv ->
  (0 <= s <= max_inventory (conf sv))%Z ->
  let Q := q_value (conf sv) (value_at (value_function sv)) s in
  exists a sv',
    sweep_step (delta, sv) s
    = Ok (Rmax delta (Rabs (value_at (value_function sv) s - Q a)), sv')
    /\ solver_wf sv'
    /\ conf sv' = conf sv
    /\ value_function sv' = <[Z.to_nat s:=Q a]> (value_function sv)
    /\ policy sv' = <[Z.to_nat s:=a]> (policy sv)
    /\ (0 <= a <= max_inventory (conf sv) - s)%Z
    /\ (forall a', (0 <= a' <= max_inventory (conf sv) - s)%Z -> Q a' <= Q a)
    /\ (forall a', (0 <= a' < a)%Z -> Q a' < Q a).
Proof.
  intros Hwf Hs Q.
  destruct (bellman_update_spec sv s Hwf Hs)
    as (a & q & Hrun & Hwf' & Ha & Hmax & Hmin).
  fold Q in Hrun, Hmax, Hmin.
  pose proof (wf_value _ Hwf) as Hlv. pose proof (wf_policy _ Hwf) as Hlp.
  unfold sweep_step. rewrite Hrun, bind_Ok.
  change (value_function (set_q_values sv q)) with (value_function sv).
  rewrite getitem_in_range by lia. rewrite bind_Ok.
  rewrite setitem_in_range by lia. rewrite bind_Ok.
  change (policy (set_value_function (set_q_values sv q)
                    (<[Z.to_nat s:=Q a]> (value_function sv))))
    with (policy sv).
  rewrite setitem_in_range by lia. rewrite bind_Ok.
  eexists a, _. split; [reflexivity|].
  split.
  { destruct Hwf'. constructor; simpl in *; try done.
    - by rewrite length_insert.
    - by rewrite length_insert. }
  repeat split; try done; lia.
Qed.

(** The first [n] states of a sweep.  The states already visited hold a
    feasible action, the others are untouched, and [delta] is the largest
    change of a value so far. *)
Lemma sweep_prefix (sv : solver) (n : nat) :
  solver_wf sv ->
  (Z.of_nat n <= max_inventory (conf sv) + 1)%Z ->
  exists delta sv',
    for_each (range (Z.of_nat n)) sweep_step (0, sv) = Ok (delta, sv')
    /\ solver_wf sv'
    /\ conf sv' = conf sv
    /\ (forall s, (0 <= s < Z.of_nat n)%Z ->
          (0 <= policy_at (policy sv') s <= max_inventory (conf sv) - s)%Z)
    /\ (forall s, (Z.of_nat n <= s)%Z ->
          value_at (value_function sv') s = value_at (value_function sv) s)
    /\ 0 <= delta
    /\ (forall s, (0 <= s < Z.of_nat n)%Z ->
          Rabs (value_at (value_function sv) s
                - value_at (value_function sv') s) <= delta)
    /\ (delta = 0 \/
        exists s, (0 <= s < Z.of_nat n)%Z
                  /\ delta = Rabs (value_at (value_function sv) s
                                   - value_at (value_function sv') s)).
Proof.
  intros Hwf Hn. induction n as [|n IH].
  - exists 0, sv. simpl.
    split; [reflexivity|]. split; [done|]. split; [done|].
    split; [intros; lia|]. split; [done|]. split; [lra|].
    split; [intros; lia|]. by left.
  - destruct IH as (delta & sv1 & Hrun & Hwf1 & Hc1 & Hpol & Hrest & Hd0
                    & Hdmax & Hdwit); [lia|].
    assert (Hfor : for_each (range (Z.of_nat (S n))) sweep_step (0, sv)
                   = sweep_step (delta, sv1) (Z.of_nat n)).
    { rewrite Nat2Z.inj_succ, <- Z.add_1_r, range_snoc, for_each_snoc by lia.
      by rewrite Hrun, bind_Ok. }
    rewrite Hfor. clear Hfor.
    destruct (sweep_step_ok sv1 delta (Z.of_nat n) Hwf1)
      as (a & sv2 & Hstep & Hwf2 & Hc2 & Hvf2 & Hp2 & Ha & _);
      [rewrite Hc1; lia|].
    rewrite Hstep. rewrite Hc1 in *.
    pose proof (wf_value _ Hwf1) as Hlv. pose proof (wf_policy _ Hwf1) as Hlp.
    rewrite Hc1 in Hlv, Hlp.
    set (Q := q_value (conf sv) (value_at (value_function sv1)) (Z.of_nat n))
      in *.
    eexists _, sv2. split; [reflexivity|]. split; [done|].
    split; [congruence|].
    assert (Hold : value_at (value_function sv1) (Z.of_nat n)
                   = value_at (value_function sv) (Z.of_nat n))
      by (apply Hrest; lia).
    assert (Hnew : forall s, (0 <= s)%Z ->
              value_at (value_function sv2) s
              = if decide (s = Z.of_nat n) then Q a
                else value_at (value_function sv1) s).
    { intros s Hs. rewrite Hvf2. apply value_at_insert; lia. }
    split; [|split; [|split; [|split]]].
    + intros s Hs. rewrite Hp2, policy_at_insert by lia.
      destruct (decide (s = Z.of_nat n)) as [->|Hne]; [lia|].
      apply Hpol. lia.
    + intros s Hs. rewrite Hnew by lia.
      rewrite decide_False by lia. apply Hrest. lia.
    + apply Rle_trans with delta; [done|apply Rmax_l].
    + intros s Hs. rewrite Hnew by lia.
      destruct (decide (s = Z.of_nat n)) as [->|Hne].
      * rewrite Hold. apply Rmax_r.
      * apply Rle_trans with delta; [apply Hdmax; lia|apply Rmax_l].
    + destruct (Rmax_case delta
                  (Rabs (value_at (value_function sv1) (Z.of_nat n) - Q a))
                  (fun r => r = delta \/
                            r = Rabs (value_at (value_function sv1) (Z.of_nat n)
                                      - Q a)))
        as [Hm|Hm]; [by left|by right| |].
      * rewrite Hm. destruct Hdwit as [->|(s & Hs & Hds)]; [by left|].
        right. exists s. split; [lia|]. rewrite Hnew by lia.
        by rewrite decide_False by lia.
      * right. exists (Z.of_nat n). split; [lia|]. rewrite Hnew by lia.
        rewrite decide_True by done. by rewrite <- Hold.
Qed.

(** A whole sweep never raises; it leaves a feasible policy and returns the
    largest change of a value. *)
Lemma sweep_ok (sv : solver) :
  solver_wf sv ->
  exists delta sv',
    sweep sv = Ok (delta, sv')
    /\ solver_wf sv'
    /\ conf sv' = conf sv
    /\ policy_feasible sv'
    /\ 0 <= delta
    /\ (forall s, (0 <= s <= max_inventory (conf sv))%Z ->
          Rabs (value_at (value_function sv) s
                - value_at (value_function sv') s) <= delta)
    /\ (delta = 0 \/
        exists s, (0 <= s <= max_inventory (conf sv))%Z
                  /\ delta = Rabs (value_at (value_function sv) s
                                   - value_at (value_function sv') s)).
Proof.
  intros Hwf. pose proof (wf_capacity _ Hwf) as HM.
  destruct (sweep_prefix sv (Z.to_nat (max_inventory (conf sv) + 1)) Hwf)
    as (delta & sv' & Hrun & Hwf' & Hc & Hpol & _ & Hd0 & Hdmax & Hdwit);
    [lia|].
  rewrite Z2Nat.id in * by lia.
  exists delta, sv'. unfold sweep. rewrite (wf_states _ Hwf).
  split; [done|]. split; [done|]. split; [done|]. split.
  { intros s Hs. rewrite Hc in *. apply Hpol. lia. }
  split; [done|]. split.
  { intros s Hs. apply Hdmax. lia. }
  destruct Hdwit as [->|(s & Hs & Hds)]; [by left|].
  right. exists s. split; [lia|done].
Qed.

Lemma sweeps_succ_r (k : nat) (sv svk : solver) (delta : R) (sv' : solver) :
  sweeps k sv = Ok svk -> sweep svk = Ok (delta, sv') ->
  sweeps (S k) sv = Ok sv'.
Proof.
  revert sv. induction k as [|k IH]; intros sv Hk Hs; simpl in *.
  - injection Hk as ->. by rewrite Hs.
  - destruct (sweep sv) as [[d sv1]|e]; simpl in *; [|discriminate].
    by apply IH.
Qed.

Lemma sweeps_add (k1 k2 : nat) (sv sv1 sv2 : solver) :
  sweeps k1 sv = Ok sv1 -> sweeps k2 sv1 = Ok sv2 ->
  sweeps (k1 + k2) sv = Ok sv2.
Proof.
  revert sv. induction k1 as [|k1 IH]; intros sv H1 H2; simpl in *.
  - by injection H1 as ->.
  - destruct (sweep sv) as [[d sv']|e]; simpl in *; [|discriminate].
    by apply IH.
Qed.

(** The loop of [value_iteration] over a non-empty range: it runs sweep after
    sweep, stops after the first one whose [delta] is below [epsilon], and
    otherwise after the last turn. *)
Lemma vi_loop_spec (epsilon : R) (its : list Z) (st : vi_locals) :
  solver_wf (l_solver st) ->
  its <> [] ->
  exists (k : nat) (delta : R) (svk : solver) (st' : vi_locals),
    vi_loop epsilon its st = Ok st'
    /\ (k < length its)%nat
    /\ sweeps k (l_solver st) = Ok svk
    /\ sweep svk = Ok (delta, l_solver st')
    /\ solver_wf (l_solver st')
    /\ conf (l_solver st') = conf (l_solver st)
    /\ policy_feasible (l_solver st')
    /\ l_delta st' = Some delta
    /\ l_iteration st' = its !! k
    /\ (delta < epsilon \/ S k = length its)
    /\ length (l_history st') = (length (l_history st) + S k)%nat
    /\ (forall j, (j < k)%nat ->
          exists svj dj svj',
            sweeps j (l_solver st) = Ok svj
            /\ sweep svj = Ok (dj, svj')
            /\ ~ dj < epsilon).
Proof.
  intros Hwf Hne. revert st Hwf.
  induction its as [|it its IH]; intros st Hwf; [done|]. clear Hne.
  destruct (sweep_ok _ Hwf) as (d & sv1 & Hsw & Hwf1 & Hc1 & Hpol1 & _).
  simpl. rewrite Hsw, bind_Ok.
  pose proof (wf_value _ Hwf1) as Hlv. pose proof (wf_capacity _ Hwf1) as HM.
  destruct (value_function sv1) as [|v vs] eqn:Hvf; [simpl in Hlv; lia|].
  cbn [np_max np_min]. rewrite !bind_Ok.
  destruct (bool_decide_reflect (d < epsilon)) as [Hlt|Hge].
  - eexists 0%nat, d, (l_solver st), _. split; [reflexivity|]. simpl.
    split; [lia|]. split; [done|]. split; [done|]. split; [done|].
    split; [done|]. split; [done|]. split; [done|]. split; [done|].
    split; [by left|]. split; [by rewrite length_app|]. intros j Hj. lia.
  - destruct its as [|it' its'].
    + eexists 0%nat, d, (l_solver st), _. split; [reflexivity|]. simpl.
      split; [lia|]. split; [done|]. split; [done|]. split; [done|].
      split; [done|]. split; [done|]. split; [done|]. split; [done|].
      split; [by right|]. split; [by rewrite length_app|]. intros j Hj. lia.
    + set (st1 := {| l_delta := Some d; l_iteration := Some it;
                     l_history := l_history st ++
                       [{| h_iteration := it + 1; h_delta := d;
                           h_max_value := foldl Rmax v vs;
                           h_min_value := foldl Rmin v vs |}];
                     l_solver := sv1 |}).
      destruct (IH ltac:(done) st1 Hwf1)
        as (k & delta & svk & st' & Hrun & Hk & Hsws & Hlast & Hwf' & Hc'
            & Hpol' & Hd & Hit & Hstop & Hhist & Hearly).
      exists (S k), delta, svk, st'. split; [exact Hrun|].
      split; [simpl in *; lia|]. split.
      { simpl. rewrite Hsw, bind_Ok. exact Hsws. }
      split; [done|]. split; [done|]. split; [simpl in *; congruence|].
      split; [done|]. split; [done|]. split; [done|]. split.
      { destruct Hstop as [?|Hl]; [by left|right]. simpl in *. lia. }
      split.
      { rewrite Hhist. simpl. rewrite length_app. simpl. lia. }
      intros [|j] Hj.
      * exists (l_solver st), d, sv1. by repeat split.
      * destruct (Hearly j ltac:(lia)) as (svj & dj & svj' & H1 & H2 & H3).
        exists svj, dj, svj'. split; [|done]. simpl. by rewrite Hsw, bind_Ok.
Qed.

Lemma range_lookup (n : Z) (k : nat) :
  (Z.of_nat k < n)%Z -> range n !! k = Some (Z.of_nat k).
Proof. intros Hk. unfold range. by rewrite lookup_seqZ_lt. Qed.

(** With at least one iteration allowed, [value_iteration] returns: it has
    run [k + 1 <= max_iterations] sweeps, the last one produced the reported
    [final_delta], no earlier one went below [epsilon], and it stopped early
    only on convergence. *)
Lemma value_iteration_runs (sv : solver) (epsilon : R) (max_iterations : Z) :
  solver_wf sv ->
  (1 <= max_iterations)%Z ->
  exists (k : nat) (delta : R) (svk : solver) (r : convergence) (sv' : solver),
    value_iteration sv epsilon max_iterations = Ok (r, sv')
    /\ (Z.of_nat (S k) <= max_iterations)%Z
    /\ sweeps k sv = Ok svk
    /\ sweep svk = Ok (delta, sv')
    /\ solver_wf sv'
    /\ conf sv' = conf sv
    /\ policy_feasible sv'
    /\ iterations r = Z.of_nat (S k)
    /\ final_delta r = delta
    /\ converged r = bool_decide (delta < epsilon)
    /\ (converged r = false -> Z.of_nat (S k) = max_iterations)
    /\ length (history r) = S k
    /\ (forall j, (j < k)%nat ->
          exists svj dj svj',
            sweeps j sv = Ok svj /\ sweep svj = Ok (dj, svj')
            /\ ~ dj < epsilon).
Proof.
  intros Hwf Hn.
  set (st0 := {| l_delta := None; l_iteration := None; l_history := [];
                 l_solver := sv |}).
  assert (Hne : range max_iterations <> []).
  { intros Hnil. apply (f_equal length) in Hnil. unfold range in Hnil.
    rewrite length_seqZ in Hnil. simpl in Hnil. lia. }
  destruct (vi_loop_spec epsilon (range max_iterations) st0 Hwf Hne)
    as (k & delta & svk & st' & Hrun & Hk & Hsws & Hlast & Hwf' & Hc'
        & Hpol' & Hd & Hit & Hstop & Hhist & Hearly).
  unfold range in Hk. rewrite length_seqZ in Hk. fold (range max_iterations) in *.
  rewrite range_lookup in Hit by lia.
  unfold value_iteration. fold st0. rewrite Hrun, bind_Ok, Hd, Hit.
  cbn [local]. rewrite !bind_Ok.
  eexists k, delta, svk, _, _. split; [reflexivity|]. cbn.
  split; [lia|]. split; [done|]. split; [done|]. split; [done|].
  split; [done|]. split; [done|]. split; [lia|]. split; [done|].
  split; [done|]. split.
  { intros Hconv. destruct Hstop as [Hlt|Hlen].
    - apply bool_decide_eq_false in Hconv. contradiction.
    - unfold range in Hlen. rewrite length_seqZ in Hlen. lia. }
  split; [exact Hhist|]. exact Hearly.
Qed.

(** With no iteration allowed the loop body never runs and the locals the
    [return] reads are unbound. *)
Lemma value_iteration_no_iteration (sv : solver) (epsilon : R)
    (max_iterations : Z) :
  (max_iterations <= 0)%Z ->
  value_iteration sv epsilon max_iterations = Raise UnboundLocalError.
Proof.
  intros Hn. unfold value_iteration, range. by rewrite seqZ_nil.
Qed.

(** ** Freshly constructed solvers *)

Lemma zeroed_wf (c : config) :
  (0 <= max_inventory c)%Z -> solver_wf (zeroed c).
Proof.
  intros HM. constructor; simpl; try done.
  - unfold range. by rewrite length_replicate, length_seqZ.
  - unfold range. by rewrite length_replicate, length_seqZ.
  - unfold range. by rewrite length_replicate, length_seqZ.
  - apply Forall_replicate. by rewrite length_replicate.
Qed.

Lemma init_ok (c : config) :
  (-1 <= max_inventory c)%Z -> init c = Ok (zeroed c).
Proof. intros HM. unfold init. by rewrite decide_False by lia. Qed.

(** ** A few evaluations *)

Example clamp_below : clamp default_config (-3) = 0%Z.
Proof. reflexivity. Qed.

Example clamp_above : clamp default_config 120 = 100%Z.
Proof. reflexivity. Qed.

Example immediate_reward_4_3_6 : immediate_reward default_config 4 3 6 = -53.
Proof.
  unfold immediate_reward. simpl.
  change (Z.min 4 6) with 4%Z. change (3 * 5)%Z with 15%Z.
  change (Z.max 0 (6 - 4)) with 2%Z. lra.
Qed.

Example immediate_reward_no_order :
  immediate_reward default_config 4 0 6 = 12.
Proof.
  unfold immediate_reward. simpl.
  change (Z.min 4 6) with 4%Z. change (Z.max 0 (6 - 4)) with 2%Z. lra.
Qed.

Example demand_probability_negative :
  demand_probability default_config (-1) = 0.
Proof. reflexivity. Qed.

Example init_negative_capacity :
  init {| max_inventory := -2; order_cost := 50; holding_cost := 2;
          stockout_cost := 20; selling_price := 15; demand_mean := 10;
          demand_std := 3; gamma := 95 / 100 |}
  = Raise ValueError.
Proof. reflexivity. Qed.

Example getitem_from_the_end : getitem [10; 20; 30]%Z (-1) = Ok 30%Z.
Proof. reflexivity. Qed.

Example getitem_out_of_range : getitem [10; 20; 30]%Z 3 = Raise IndexError.
Proof. reflexivity. Qed.

Example narrow_demand_pdf_at_mean :
  narrow_demand_pdf 5
  = (1 / 0x1.40d931ff62705p+1 / 0x1p-2)%float.
Proof. reflexivity. Qed.

Example transition_probability_b64_state_0 :
  transition_probability_b64 narrow_demand_pdf 5 6 0 5 0
  = (narrow_demand_pdf 5 + narrow_demand_pdf 6)%float.
Proof. reflexivity. Qed.

(** ** C1: the Bellman update *)

(** C1.  With [demand_std > 0], for every state [s] in [0..max_inventory],
    [bellman_update(s)] returns the maximum over the feasible actions [a] in
    [0..max_inventory - s] of the expected value
    [sum_d probability(d) * (reward(s,a,d) + gamma * value_function[clamp(s+a-d)])],
    together with the smallest action attaining it: every feasible action
    has a value at most the returned one and every smaller action a strictly
    smaller one.  The value and policy tables are left as they were. *)
Theorem bellman_update_max_least_action (sv : solver) (s : Z) :
  solver_wf sv ->
  0 < demand_std (conf sv) ->
  (0 <= s <= max_inventory (conf sv))%Z ->
  exists (a : Z) (sv' : solver),
    bellman_update sv s
    = Ok (Fin (q_value (conf sv) (value_at (value_function sv)) s a), a, sv')
    /\ value_function sv' = value_function sv
    /\ policy sv' = policy sv
    /\ (0 <= a <= max_inventory (conf sv) - s)%Z
    /\ (forall a', (0 <= a' <= max_inventory (conf sv) - s)%Z ->
          q_value (conf sv) (value_at (value_function sv)) s a'
          <= q_value (conf sv) (value_at (value_function sv)) s a)
    /\ (forall a', (0 <= a' < a)%Z ->
          q_value (conf sv) (value_at (value_function sv)) s a'
          < q_value (conf sv) (value_at (value_function sv)) s a).
Proof.
  intros Hwf _ Hs.
  destruct (bellman_update_spec sv s Hwf Hs)
    as (a & q & Hrun & _ & Ha & Hmax & Hmin).
  exists a, (set_q_values sv q).
  split; [exact Hrun|]. split; [reflexivity|]. split; [reflexivity|].
  split; [exact Ha|]. split; [exact Hmax|exact Hmin].
Qed.

Lemma bellman_update_max_least_action_witness :
  exists (a : Z) (sv' : solver),
    bellman_update (zeroed known_value_config) 3
    = Ok (Fin (q_value known_value_config
                 (value_at (value_function (zeroed known_value_config))) 3 a),
          a, sv')
    /\ value_function sv' = value_function (zeroed known_value_config)
    /\ policy sv' = policy (zeroed known_value_config)
    /\ (0 <= a <= 10 - 3)%Z
    /\ (forall a', (0 <= a' <= 10 - 3)%Z ->
          q_value known_value_config
            (value_at (value_function (zeroed known_value_config))) 3 a'
          <= q_value known_value_config
               (value_at (value_function (zeroed known_value_config))) 3 a)
    /\ (forall a', (0 <= a' < a)%Z ->
          q_value known_value_config
            (value_at (value_function (zeroed known_value_config))) 3 a'
          < q_value known_value_config
              (value_at (value_function (zeroed known_value_config))) 3 a).
Proof.
  apply (bellman_update_max_least_action (zeroed known_value_config) 3).
  - wf_by_evaluation.
  - simpl. lra.
  - simpl. lia.
Defined.

(** ** C2: the transition model and the inline summation agree *)

(** C2 as stated fails on the binary64 numbers the code computes.  For a
    demand of mean 5 and standard deviation 0.25, capacity 5, state 0, the
    feasible action 5 and a finite value table, the sum through the
    transition model overflows to infinity (the transition probability of
    state 0 is the rounded sum of two densities, and its product with the
    value of state 0 is above the largest float), while the inline sum, which
    adds the two products one after the other, stays finite. *)
Lemma binary64_summations_differ :
  is_infinity (model_sum_b64 narrow_demand_pdf 5 6 steep_value_table 0 5)
  = true
  /\ is_infinity (inline_sum_b64 narrow_demand_pdf 5 6 steep_value_table 0 5)
     = false
  /\ model_sum_b64 narrow_demand_pdf 5 6 steep_value_table 0 5
     <> inline_sum_b64 narrow_demand_pdf 5 6 steep_value_table 0 5.
Proof.
  assert (Hm : is_infinity
                 (model_sum_b64 narrow_demand_pdf 5 6 steep_value_table 0 5)
               = true) by (vm_compute; reflexivity).
  assert (Hi : is_infinity
                 (inline_sum_b64 narrow_demand_pdf 5 6 steep_value_table 0 5)
               = false) by (vm_compute; reflexivity).
  split; [exact Hm|]. split; [exact Hi|].
  intros Heq. rewrite Heq, Hi in Hm. discriminate.
Qed.

(** C2, as the code has it.  In exact arithmetic, with [demand_std > 0], for
    every state [s], feasible action [a] and value function [V], the sum over
    [next_state] in [0..max_inventory] of
    [transition_probability(s, a, next_state) * V[next_state]] equals the sum
    over the demands [d] of the truncated support of
    [demand_probability(d) * V[clamp(s+a-d)]]; hence the expected value that
    [bellman_update] accumulates inline is the expected reward plus [gamma]
    times the transition-model expectation of the value function. *)
Theorem transition_model_matches_inline_sum (sv : solver) (V : Z -> R)
    (s a : Z) :
  solver_wf sv ->
  0 < demand_std (conf sv) ->
  (0 <= s <= max_inventory (conf sv))%Z ->
  (0 <= a <= max_inventory (conf sv) - s)%Z ->
  sum_over (range (max_inventory (conf sv) + 1))
    (fun ns => transition_probability (conf sv) s a ns * V ns)
  = sum_over (range (max_demand (conf sv) + 1))
      (fun d => demand_probability (conf sv) d
                * V (clamp (conf sv) (s + a - d)))
  /\ expected_value sv s a
     = Ok (sum_over (range (max_demand (conf sv) + 1))
             (fun d => demand_probability (conf sv) d
                       * immediate_reward (conf sv) s a d)
           + gamma (conf sv)
             * sum_over (range (max_inventory (conf sv) + 1))
                 (fun ns => transition_probability (conf sv) s a ns
                            * value_at (value_function sv) ns)).
Proof.
  intros Hwf _ Hs Ha. pose proof (wf_capacity _ Hwf) as HM. split.
  - by apply transition_regroup.
  - rewrite expected_value_ok by (done || apply Hwf). f_equal.
    rewrite transition_regroup by done.
    rewrite <- sum_over_scal, <- sum_over_plus. unfold q_value.
    apply sum_over_ext. intros d _. lra.
Qed.

Lemma transition_model_matches_inline_sum_witness :
  sum_over (range (10 + 1))
    (fun ns => transition_probability known_value_config 3 2 ns * IZR ns)
  = sum_over (range (max_demand known_value_config + 1))
      (fun d => demand_probability known_value_config d
                * IZR (clamp known_value_config (3 + 2 - d)))
  /\ expected_value (zeroed known_value_config) 3 2
     = Ok (sum_over (range (max_demand known_value_config + 1))
             (fun d => demand_probability known_value_config d
                       * immediate_reward known_value_config 3 2 d)
           + 95 / 100
             * sum_over (range (10 + 1))
                 (fun ns => transition_probability known_value_config 3 2 ns
                            * value_at
                                (value_function (zeroed known_value_config))
                                ns)).
Proof.
  apply (transition_model_matches_inline_sum (zeroed known_value_config)
           IZR 3 2).
  - wf_by_evaluation.
  - simpl. lra.
  - simpl. lia.
  - simpl. lia.
Defined.

(** ** C3: value iteration with no iteration allowed *)

(** C3, at the input where the code departs from it.  On the freshly built
    default solver, [value_iteration(epsilon=0.01, max_iterations=0)] does not
    return a convergence record: the loop body never runs, [delta] is never
    bound and the [return] raises [UnboundLocalError].  (For
    [max_iterations >= 1] the claim holds: [value_iteration_runs].) *)
Theorem value_iteration_zero_iterations_raises :
  value_iteration (zeroed default_config) (1 / 100) 0
  = Raise UnboundLocalError.
Proof. apply value_iteration_no_iteration. lia. Qed.

(** ** C4: the reward model *)

(** C4.  For every state [s], order quantity [a >= 0] and demand [d],
    [immediate_reward(s, a, d)] is [min(s,d) * selling_price] minus
    [s * holding_cost] (holding is charged on the pre-sale inventory) minus
    the ordering cost ([0] if [a = 0], else [order_cost + a * 5]) minus
    [max(0, d - s) * stockout_cost]. *)
Theorem immediate_reward_formula (c : config) (s a d : Z) :
  (0 <= a)%Z ->
  immediate_reward c s a d
  = IZR (Z.min s d) * selling_price c
    - IZR s * holding_cost c
    - (if decide (a = 0%Z) then 0 else order_cost c + IZR a * 5)
    - IZR (Z.max 0 (d - s)) * stockout_cost c.
Proof.
  intros Ha. unfold immediate_reward.
  destruct (decide (a > 0)%Z), (decide (a = 0%Z)); try lia; try lra.
  rewrite mult_IZR. lra.
Qed.

Lemma immediate_reward_formula_witness :
  immediate_reward default_config 4 3 6
  = IZR (Z.min 4 6) * 15 - IZR 4 * 2
    - (if decide (3 = 0)%Z then 0 else 50 + IZR 3 * 5)
    - IZR (Z.max 0 (6 - 4)) * 20.
Proof. apply (immediate_reward_formula default_config 4 3 6). lia. Defined.

(** ** C7: the stored policy is feasible *)

(** C7.  After every completed sweep, and after every return of
    [value_iteration], each state [s] holds an action with
    [0 <= policy[s] <= max_inventory - s], and [policy[max_inventory] = 0].
    A sweep always completes, and [value_iteration] returns whenever
    [max_iterations >= 1]. *)
Theorem policy_feasible_after_sweep (sv : solver) :
  solver_wf sv ->
  (exists delta sv',
     sweep sv = Ok (delta, sv')
     /\ policy_feasible sv'
     /\ policy_at (policy sv') (max_inventory (conf sv')) = 0%Z)
  /\ (forall epsilon max_iterations, (1 <= max_iterations)%Z ->
        exists r sv', value_iteration sv epsilon max_iterations = Ok (r, sv'))
  /\ (forall epsilon max_iterations r sv',
        value_iteration sv epsilon max_iterations = Ok (r, sv') ->
        policy_feasible sv'
        /\ policy_at (policy sv') (max_inventory (conf sv')) = 0%Z).
Proof.
  intros Hwf.
  assert (Hlast : forall sv' : solver, solver_wf sv' -> policy_feasible sv' ->
            policy_at (policy sv') (max_inventory (conf sv')) = 0%Z).
  { intros sv' Hwf' Hpol. pose proof (wf_capacity _ Hwf').
    specialize (Hpol (max_inventory (conf sv'))). lia. }
  split; [|split].
  - destruct (sweep_ok sv Hwf) as (delta & sv' & Hrun & Hwf' & _ & Hpol & _).
    exists delta, sv'. split; [done|]. split; [done|]. by apply Hlast.
  - intros epsilon n Hn.
    destruct (value_iteration_runs sv epsilon n Hwf Hn)
      as (k & delta & svk & r & sv' & Hrun & _).
    by exists r, sv'.
  - intros epsilon n r sv' Hret.
    destruct (Z_le_gt_dec n 0) as [Hle|Hgt].
    + rewrite value_iteration_no_iteration in Hret by done. discriminate.
    + destruct (value_iteration_runs sv epsilon n Hwf ltac:(lia))
        as (k & delta & svk & r' & sv'' & Hrun & _ & _ & _ & Hwf' & _ & Hpol
            & _).
      rewrite Hrun in Hret. injection Hret as <- <-.
      split; [done|]. by apply Hlast.
Qed.

Lemma policy_feasible_after_sweep_witness :
  (exists delta sv',
     sweep (zeroed known_value_config) = Ok (delta, sv')
     /\ policy_feasible sv'
     /\ policy_at (policy sv') (max_inventory (conf sv')) = 0%Z)
  /\ (forall epsilon max_iterations, (1 <= max_iterations)%Z ->
        exists r sv',
          value_iteration (zeroed known_value_config) epsilon max_iterations
          = Ok (r, sv'))
  /\ (forall epsilon max_iterations r sv',
        value_iteration (zeroed known_value_config) epsilon max_iterations
        = Ok (r, sv') ->
        policy_feasible sv'
        /\ policy_at (policy sv') (max_inventory (conf sv')) = 0%Z).
Proof.
  apply (policy_feasible_after_sweep (zeroed known_value_config)).
  wf_by_evaluation.
Defined.

(** ** C5: the demand model *)

Lemma sqrt_2PI_pos : 0 < sqrt (2 * PI).
Proof. apply sqrt_lt_R0. pose proof PI_RGT_0. lra. Qed.

Lemma sqrt_2PI_lt_3 : sqrt (2 * PI) < 3.
Proof.
  rewrite <- (sqrt_square 3) by lra.
  apply sqrt_lt_1; pose proof PI_RGT_0; pose proof PI_4; lra.
Qed.

Lemma exp_nonpos_le_1 (x : R) : x <= 0 -> exp x <= 1.
Proof.
  intros [Hlt | ->]; [|rewrite exp_0; lra].
  left. rewrite <- exp_0. by apply exp_increasing.
Qed.

Lemma std_norm_pdf_bounds (y : R) :
  0 < std_norm_pdf y <= / sqrt (2 * PI).
Proof.
  unfold std_norm_pdf. pose proof sqrt_2PI_pos as Hs.
  pose proof (exp_pos (- (y * y) / 2)) as Hp.
  assert (He : exp (- (y * y) / 2) <= 1) by (apply exp_nonpos_le_1; nra).
  pose proof (Rinv_0_lt_compat _ Hs) as Hi.
  unfold Rdiv. split; [nra|nra].
Qed.

Lemma norm_pdf_bounds (x loc scale : R) :
  0 < scale ->
  0 < norm_pdf x loc scale <= / (sqrt (2 * PI) * scale).
Proof.
  intros Hsc. unfold norm_pdf.
  pose proof (std_norm_pdf_bounds ((x - loc) / scale)) as [Hp Hle].
  pose proof sqrt_2PI_pos as Hs.
  pose proof (Rinv_0_lt_compat _ Hsc) as Hi.
  rewrite Rinv_mult. unfold Rdiv. split; [nra|nra].
Qed.

Lemma demand_probability_nonneg (c : config) (d : Z) :
  0 < demand_std c -> 0 <= demand_probability c d.
Proof.
  intros Hsd. unfold demand_probability. destruct (decide (d < 0)%Z); [lra|].
  left. by apply norm_pdf_bounds.
Qed.

(** The density at the mean. *)
Lemma norm_pdf_at_mean (x scale : R) :
  0 < scale -> norm_pdf x x scale = / (sqrt (2 * PI) * scale).
Proof.
  intros Hsc. unfold norm_pdf, std_norm_pdf.
  replace (- ((x - x) / scale * ((x - x) / scale)) / 2) with 0
    by (unfold Rdiv; ring).
  rewrite exp_0, Rinv_mult. unfold Rdiv. ring.
Qed.

(** C5, as the code has it.  For a positive [demand_std] and every integer
    [d], [demand_probability(d)] lies between [0] and the peak of the density,
    [1 / (sqrt(2 pi) * demand_std)]; it is [0] for every negative [d] and the
    Normal([demand_mean], [demand_std]) density at [d] otherwise.  It is at
    most [1] when [sqrt(2 pi) * demand_std >= 1]. *)
Theorem demand_probability_range (c : config) (d : Z) :
  0 < demand_std c ->
  0 <= demand_probability c d <= / (sqrt (2 * PI) * demand_std c)
  /\ ((d < 0)%Z -> demand_probability c d = 0)
  /\ ((0 <= d)%Z ->
      demand_probability c d = norm_pdf (IZR d) (demand_mean c) (demand_std c))
  /\ (1 <= sqrt (2 * PI) * demand_std c -> demand_probability c d <= 1).
Proof.
  intros Hsd. pose proof sqrt_2PI_pos as Hs.
  assert (Hpeak : 0 < / (sqrt (2 * PI) * demand_std c))
    by (apply Rinv_0_lt_compat; nra).
  assert (Hb : 0 <= demand_probability c d <= / (sqrt (2 * PI) * demand_std c)).
  { unfold demand_probability. destruct (decide (d < 0)%Z); [lra|].
    pose proof (norm_pdf_bounds (IZR d) (demand_mean c) _ Hsd). lra. }
  split; [exact Hb|]. split; [|split].
  - intros Hd. unfold demand_probability. by rewrite decide_True.
  - intros Hd. unfold demand_probability. by rewrite decide_False by lia.
  - intros Hge. apply Rle_trans with (/ (sqrt (2 * PI) * demand_std c));
      [apply Hb|].
    rewrite <- Rinv_1. apply Rinv_le_contravar; lra.
Qed.

Lemma demand_probability_range_witness :
  0 <= demand_probability default_config 10 <= / (sqrt (2 * PI) * 3)
  /\ ((10 < 0)%Z -> demand_probability default_config 10 = 0)
  /\ ((0 <= 10)%Z -> demand_probability default_config 10 = norm_pdf 10 10 3)
  /\ (1 <= sqrt (2 * PI) * 3 -> demand_probability default_config 10 <= 1).
Proof.
  apply (demand_probability_range default_config 10). simpl. lra.
Defined.

Lemma known_value_peak : demand_probability known_value_config 5 > 33.
Proof.
  unfold demand_probability. rewrite decide_False by lia. simpl.
  rewrite norm_pdf_at_mean by lra.
  pose proof sqrt_2PI_pos as Hs. pose proof sqrt_2PI_lt_3 as H3.
  assert (Hlt : sqrt (2 * PI) * (1 / 100) < 3 / 100) by lra.
  assert (Hpos : 0 < sqrt (2 * PI) * (1 / 100)) by lra.
  apply Rinv_lt_contravar in Hlt; [|nra].
  replace (/ (3 / 100)) with (100 / 3) in Hlt by field. lra.
Qed.

(** C5 as stated fails: in the near-deterministic scenario of section 8
    (mean 5, standard deviation 0.01) the returned density at [d = 5] is
    above 33, outside [0, 1]. *)
Lemma demand_probability_above_one :
  ~ (0 <= demand_probability known_value_config 5 <= 1).
Proof. pose proof known_value_peak. lra. Qed.

(** ** C6: the transition probabilities of a state and action *)

Lemma py_int_between (z : Z) (x : R) :
  (0 <= z)%Z -> IZR z <= x < IZR z + 1 -> py_int x = z.
Proof.
  intros Hz Hx. unfold py_int.
  assert (0 <= IZR z) by (apply IZR_le in Hz; exact Hz).
  rewrite decide_True by lra. symmetry. apply Int_part_spec. lra.
Qed.

Lemma max_demand_known_value : max_demand known_value_config = 5%Z.
Proof. unfold max_demand. simpl. apply py_int_between; [lia|lra]. Qed.

Example max_demand_default : max_demand default_config = 22%Z.
Proof. unfold max_demand. simpl. apply py_int_between; [lia|lra]. Qed.

Lemma max_demand_single_state : max_demand single_state_config = 22%Z.
Proof. unfold max_demand. simpl. apply py_int_between; [lia|lra]. Qed.

Lemma sum_over_ge_term (f : Z -> R) (l : list Z) (k : Z) :
  (forall d, d ∈ l -> 0 <= f d) -> k ∈ l -> f k <= sum_over l f.
Proof.
  induction l as [|x l IH]; intros Hf Hk; [by apply elem_of_nil in Hk|].
  simpl. assert (0 <= f x) by (apply Hf; left).
  assert (0 <= sum_over l f)
    by (apply sum_over_nonneg; intros; apply Hf; by right).
  apply elem_of_cons in Hk as [->|Hk]; [unfold sum_over in *; lra|].
  assert (f k <= sum_over l f)
    by (apply IH; [intros; apply Hf; by right|done]).
  unfold sum_over in *. lra.
Qed.

Lemma transition_probability_total (c : config) (s a : Z) :
  (0 <= max_inventory c)%Z ->
  sum_over (range (max_inventory c + 1)) (transition_probability c s a)
  = demand_mass c.
Proof.
  intros HM. pose proof (transition_regroup c (fun _ => 1) s a HM) as Heq.
  unfold demand_mass.
  rewrite (sum_over_ext (transition_probability c s a)
             (fun ns => transition_probability c s a ns * 1))
    by (intros; lra).
  rewrite Heq. apply sum_over_ext. intros; lra.
Qed.

(** C6, as the code has it.  For every state [s] and feasible action [a],
    the sum over [next_state] in [0..max_inventory] of
    [transition_probability(s, a, next_state)] equals the total of
    [demand_probability] over the truncated support, a quantity that does not
    depend on [s] and [a], is not negative, and is at least the density at
    any single demand of the support. *)
Theorem transition_probability_sums_to_demand_mass (c : config) (s a : Z) :
  0 < demand_std c ->
  (0 <= s <= max_inventory c)%Z ->
  (0 <= a <= max_inventory c - s)%Z ->
  sum_over (range (max_inventory c + 1)) (transition_probability c s a)
  = demand_mass c
  /\ 0 <= demand_mass c
  /\ (forall d, (0 <= d <= max_demand c)%Z ->
        demand_probability c d <= demand_mass c).
Proof.
  intros Hsd Hs Ha. split; [|split].
  - apply transition_probability_total. lia.
  - apply sum_over_nonneg. intros d _. by apply demand_probability_nonneg.
  - intros d Hd. apply sum_over_ge_term.
    + intros d' _. by apply demand_probability_nonneg.
    + apply elem_of_range. lia.
Qed.

Lemma transition_probability_sums_to_demand_mass_witness :
  sum_over (range (100 + 1)) (transition_probability default_config 40 25)
  = demand_mass default_config
  /\ 0 <= demand_mass default_config
  /\ (forall d, (0 <= d <= max_demand default_config)%Z ->
        demand_probability default_config d <= demand_mass default_config).
Proof.
  apply (transition_probability_sums_to_demand_mass default_config 40 25).
  - simpl. lra.
  - simpl. lia.
  - simpl. lia.
Defined.

(** C6 as stated fails: in the near-deterministic scenario of section 8, for
    state 0 and the feasible action 0, the transition probabilities sum to
    more than 33, nowhere near 1. *)
Lemma transition_probability_sum_far_from_one :
  (0 <= 0 <= max_inventory known_value_config - 0)%Z
  /\ 33 < sum_over (range (max_inventory known_value_config + 1))
            (transition_probability known_value_config 0 0).
Proof.
  split; [simpl; lia|].
  rewrite transition_probability_total by (simpl; lia).
  apply Rlt_le_trans with (demand_probability known_value_config 5);
    [apply known_value_peak|].
  apply sum_over_ge_term.
  - intros d _. apply demand_probability_nonneg. simpl. lra.
  - apply elem_of_range. rewrite max_demand_known_value. lia.
Qed.

(** ** C8 and C10: the (s, S) summary *)

Lemma s_S_step_ok (sv : solver) (rp out : list Z) (s : Z) :
  (0 <= s < Z.of_nat (length (policy sv)))%Z ->
  s_S_step sv (rp, out) s
  = Ok (if decide (policy_at (policy sv) s > 0)%Z
        then (rp ++ [s], out ++ [(s + policy_at (policy sv) s)%Z])
        else (rp, out)).
Proof.
  intros Hs. unfold s_S_step. rewrite getitem_in_range by done.
  rewrite bind_Ok. fold (policy_at (policy sv) s).
  destruct (decide (policy_at (policy sv) s > 0)%Z); reflexivity.
Qed.

(** The loop of [compute_s_S_policy] collects the ordering states and their
    order-up-to levels. *)
Lemma s_S_loop (sv : solver) (l rp out : list Z) :
  (forall s, s ∈ l -> (0 <= s < Z.of_nat (length (policy sv)))%Z) ->
  for_each l (s_S_step sv) (rp, out)
  = Ok (rp ++ filter (fun s => (policy_at (policy sv) s > 0)%Z) l,
        out ++ map (fun s => (s + policy_at (policy sv) s)%Z)
                 (filter (fun s => (policy_at (policy sv) s > 0)%Z) l)).
Proof.
  revert rp out. induction l as [|s l IH]; intros rp out Hin.
  - simpl. by rewrite !app_nil_r.
  - assert (Hs : (0 <= s < Z.of_nat (length (policy sv)))%Z)
      by (apply Hin; left).
    assert (Hl : forall s', s' ∈ l ->
                   (0 <= s' < Z.of_nat (length (policy sv)))%Z)
      by (intros; apply Hin; by right).
    cbn [for_each]. rewrite s_S_step_ok, bind_Ok by done.
    destruct (decide (policy_at (policy sv) s > 0)%Z) as [Hpos|Hnpos].
    + rewrite IH by done. rewrite filter_cons_True by done. simpl.
      by rewrite <- !app_assoc.
    + rewrite IH by done. by rewrite filter_cons_False by done.
Qed.

Lemma compute_s_S_policy_eval (sv : solver) :
  (forall s, s ∈ states sv -> (0 <= s < Z.of_nat (length (policy sv)))%Z) ->
  compute_s_S_policy sv
  = match ordering_states sv with
    | [] => Ok ((max_inventory (conf sv) / 3)%Z,
                (2 * max_inventory (conf sv) / 3)%Z)
    | x :: l =>
        Ok (foldl Z.max x l,
            py_int (np_mean (map (fun s => (s + policy_at (policy sv) s)%Z)
                               (x :: l))))
    end.
Proof.
  intros Hin. unfold compute_s_S_policy. rewrite s_S_loop by done.
  rewrite bind_Ok. cbn [app]. fold (ordering_states sv).
  destruct (ordering_states sv) as [|x l]; reflexivity.
Qed.

Lemma foldl_max_spec (x : Z) (l : list Z) :
  foldl Z.max x l ∈ x :: l /\ forall y, y ∈ x :: l -> (y <= foldl Z.max x l)%Z.
Proof.
  revert x. induction l as [|z l IH]; intros x; simpl.
  - split; [left|]. intros y Hy. apply list_elem_of_singleton in Hy. lia.
  - destruct (IH (Z.max x z)) as [Hin Hmax]. split.
    + apply elem_of_cons in Hin as [Heq|Hin].
      * rewrite Heq. destruct (Z.max_spec x z) as [[_ ->]|[_ ->]].
        -- right. left.
        -- left.
      * right. by right.
    + intros y Hy. assert (Z.max x z <= foldl Z.max (Z.max x z) l)%Z
        by (apply Hmax; left).
      apply elem_of_cons in Hy as [->|Hy]; [lia|].
      apply elem_of_cons in Hy as [->|Hy]; [lia|].
      apply Hmax. by right.
Qed.

(** Rounding down the quotient of a non-negative integer by a count. *)
Lemma mean_floor (a : Z) (n : nat) :
  (0 <= a)%Z -> (0 < n)%nat ->
  IZR (a / Z.of_nat n) <= IZR a / INR n < IZR (a / Z.of_nat n) + 1
  /\ py_int (IZR a / INR n) = (a / Z.of_nat n)%Z.
Proof.
  intros Ha Hn. rewrite INR_IZR_INZ.
  set (N := Z.of_nat n). assert (HN : (0 < N)%Z) by (unfold N; lia).
  pose proof (Z.div_mod a N ltac:(lia)) as Hdm.
  pose proof (Z.mod_pos_bound a N HN) as Hr.
  assert (HNR : 0 < IZR N) by (by apply IZR_lt).
  assert (Hr0 : 0 <= IZR (a mod N)) by (apply IZR_le; lia).
  assert (Hr1 : IZR (a mod N) < IZR N) by (apply IZR_lt; lia).
  assert (HaR : IZR a = IZR N * IZR (a / N) + IZR (a mod N)).
  { rewrite <- mult_IZR, <- plus_IZR. by f_equal. }
  assert (Hq : IZR a / IZR N = IZR (a / N) + IZR (a mod N) / IZR N).
  { rewrite HaR. field. lra. }
  assert (Hf0 : 0 <= IZR (a mod N) / IZR N).
  { apply Rmult_le_pos; [done|]. left. by apply Rinv_0_lt_compat. }
  assert (Hf1 : IZR (a mod N) / IZR N < 1).
  { apply Rmult_lt_reg_r with (IZR N); [done|].
    unfold Rdiv. rewrite Rmult_assoc, Rinv_l by lra. lra. }
  assert (Hb : IZR (a / N) <= IZR a / IZR N < IZR (a / N) + 1) by lra.
  split; [exact Hb|]. apply py_int_between; [|exact Hb].
  apply Z.div_pos; lia.
Qed.

Lemma foldr_add_map_nonneg (f : Z -> Z) (l : list Z) :
  (forall x, x ∈ l -> (0 <= f x)%Z) -> (0 <= foldr Z.add 0 (map f l))%Z.
Proof.
  induction l as [|x l IH]; intros Hf; simpl; [lia|].
  assert (0 <= f x)%Z by (apply Hf; left).
  assert (0 <= foldr Z.add 0 (map f l))%Z
    by (apply IH; intros; apply Hf; by right).
  lia.
Qed.

Lemma elem_of_ordering_states (sv : solver) (s : Z) :
  solver_wf sv ->
  s ∈ ordering_states sv
  <-> (0 <= s <= max_inventory (conf sv))%Z
      /\ (policy_at (policy sv) s > 0)%Z.
Proof.
  intros Hwf. unfold ordering_states.
  rewrite list_elem_of_filter, (wf_states _ Hwf), elem_of_range.
  split; intros [? ?]; split; done || lia.
Qed.

Lemma states_index_policy (sv : solver) :
  solver_wf sv ->
  forall s, s ∈ states sv -> (0 <= s < Z.of_nat (length (policy sv)))%Z.
Proof.
  intros Hwf s. rewrite (wf_states _ Hwf), elem_of_range, (wf_policy _ Hwf).
  pose proof (wf_capacity _ Hwf). lia.
Qed.

(** C8.  For every policy table: if some state has [policy[s] > 0],
    [compute_s_S_policy] returns [s], the largest state with [policy[s] > 0],
    and [S], the mean of [state + policy[state]] over the states with
    [policy[state] > 0] rounded down to an integer; if no state has
    [policy[s] > 0] it returns [max_inventory // 3] and
    [2 * max_inventory // 3]. *)
Theorem compute_s_S_policy_summary (sv : solver) :
  solver_wf sv ->
  ((exists s, (0 <= s <= max_inventory (conf sv))%Z
              /\ (policy_at (policy sv) s > 0)%Z) ->
   exists s S,
     compute_s_S_policy sv = Ok (s, S)
     /\ (0 <= s <= max_inventory (conf sv))%Z
     /\ (policy_at (policy sv) s > 0)%Z
     /\ (forall s', (0 <= s' <= max_inventory (conf sv))%Z ->
           (policy_at (policy sv) s' > 0)%Z -> (s' <= s)%Z)
     /\ IZR S
        <= np_mean (map (fun s' => (s' + policy_at (policy sv) s')%Z)
                      (ordering_states sv))
        < IZR S + 1)
  /\ ((forall s, (0 <= s <= max_inventory (conf sv))%Z ->
         (policy_at (policy sv) s <= 0)%Z) ->
      compute_s_S_policy sv
      = Ok ((max_inventory (conf sv) / 3)%Z,
            (2 * max_inventory (conf sv) / 3)%Z))
  /\ (forall s, s ∈ ordering_states sv
                <-> (0 <= s <= max_inventory (conf sv))%Z
                    /\ (policy_at (policy sv) s > 0)%Z).
Proof.
  intros Hwf.
  pose proof (compute_s_S_policy_eval sv (states_index_policy sv Hwf)) as Hev.
  split; [|split].
  - intros (s0 & Hs0 & Hp0).
    assert (Hin0 : s0 ∈ ordering_states sv)
      by (by apply elem_of_ordering_states).
    destruct (ordering_states sv) as [|x l] eqn:Hos;
      [by apply elem_of_nil in Hin0|].
    destruct (foldl_max_spec x l) as [Hmem Hmax].
    rewrite <- Hos in Hmem.
    apply (elem_of_ordering_states sv _ Hwf) in Hmem as [Hrange Hpos].
    set (f := fun s' => (s' + policy_at (policy sv) s')%Z) in *.
    destruct (mean_floor (foldr Z.add 0%Z (map f (x :: l)))
                (length (map f (x :: l)))) as [Hbr Hint].
    { apply foldr_add_map_nonneg. intros y Hy. rewrite <- Hos in Hy.
      apply (elem_of_ordering_states sv _ Hwf) in Hy. unfold f. lia. }
    { simpl. lia. }
    eexists _, _. split; [exact Hev|].
    split; [done|]. split; [done|]. split.
    + intros s' Hs' Hp'. apply Hmax. rewrite <- Hos.
      by apply elem_of_ordering_states.
    + unfold np_mean. rewrite Hint. exact Hbr.
  - intros Hnone. destruct (ordering_states sv) as [|x l] eqn:Hos; [done|].
    assert (Hx : x ∈ ordering_states sv) by (rewrite Hos; left).
    apply (elem_of_ordering_states sv _ Hwf) in Hx as [Hr Hp].
    specialize (Hnone x Hr). lia.
  - intros s. by apply elem_of_ordering_states.
Qed.

Lemma compute_s_S_policy_summary_witness :
  ((exists s, (0 <= s <= 10)%Z
              /\ (policy_at (policy order_up_to_five) s > 0)%Z) ->
   exists s S,
     compute_s_S_policy order_up_to_five = Ok (s, S)
     /\ (0 <= s <= 10)%Z
     /\ (policy_at (policy order_up_to_five) s > 0)%Z
     /\ (forall s', (0 <= s' <= 10)%Z ->
           (policy_at (policy order_up_to_five) s' > 0)%Z ->
           (s' <= s)%Z)
     /\ IZR S
        <= np_mean
             (map (fun s' =>
                     (s' + policy_at (policy order_up_to_five) s')%Z)
                (ordering_states order_up_to_five))
        < IZR S + 1)
  /\ ((forall s, (0 <= s <= 10)%Z ->
         (policy_at (policy order_up_to_five) s <= 0)%Z) ->
      compute_s_S_policy order_up_to_five
      = Ok ((10 / 3)%Z, (2 * 10 / 3)%Z))
  /\ (forall s, s ∈ ordering_states order_up_to_five
                <-> (0 <= s <= 10)%Z
                    /\ (policy_at (policy order_up_to_five) s > 0)%Z).
Proof.
  apply (compute_s_S_policy_summary order_up_to_five).
  wf_by_evaluation.
Defined.

Example compute_s_S_policy_order_up_to_five :
  compute_s_S_policy order_up_to_five = Ok (4%Z, 5%Z).
Proof.
  rewrite compute_s_S_policy_eval.
  - change (ordering_states order_up_to_five) with [0; 1; 2; 3; 4]%Z.
    f_equal. f_equal.
    change (np_mean _) with (IZR 25 / INR 5).
    replace (INR 5) with 5 by (simpl; lra).
    apply py_int_between; [lia|]. lra.
  - intros s Hs. apply elem_of_range in Hs. simpl in *. lia.
Qed.

Lemma ordering_states_zeroed (c : config) : ordering_states (zeroed c) = [].
Proof.
  destruct (ordering_states (zeroed c)) as [|x l] eqn:Hos; [done|].
  assert (Hx : x ∈ ordering_states (zeroed c)) by (rewrite Hos; left).
  unfold ordering_states in Hx. apply list_elem_of_filter in Hx as [Hp Hx].
  simpl in Hx, Hp. apply elem_of_range in Hx.
  unfold policy_at in Hp. rewrite lookup_total_replicate_2 in Hp; [lia|].
  unfold range. rewrite length_seqZ. lia.
Qed.

(** C10.  On a freshly constructed solver, before any call of
    [value_iteration], [compute_s_S_policy] succeeds and returns the fallback
    [(max_inventory // 3, 2 * max_inventory // 3)]: the policy table is all
    zeros.  (The constructor itself succeeds from [max_inventory = -1] on.) *)
Theorem compute_s_S_policy_fresh_solver (c : config) :
  (-1 <= max_inventory c)%Z ->
  exists sv,
    init c = Ok sv
    /\ compute_s_S_policy sv
       = Ok ((max_inventory c / 3)%Z, (2 * max_inventory c / 3)%Z).
Proof.
  intros HM. exists (zeroed c). split; [by apply init_ok|].
  rewrite compute_s_S_policy_eval.
  - by rewrite ordering_states_zeroed.
  - intros s Hs. simpl in *. apply elem_of_range in Hs.
    rewrite length_replicate. unfold range. rewrite length_seqZ. lia.
Qed.

Lemma compute_s_S_policy_fresh_solver_witness :
  exists sv,
    init default_config = Ok sv
    /\ compute_s_S_policy sv = Ok ((100 / 3)%Z, (2 * 100 / 3)%Z).
Proof.
  apply (compute_s_S_policy_fresh_solver default_config). simpl. lia.
Defined.

(** ** C9: calling value iteration twice *)

Lemma demand_probability_pos (c : config) (d : Z) :
  0 < demand_std c -> (0 <= d)%Z -> 0 < demand_probability c d.
Proof.
  intros Hsd Hd. unfold demand_probability. rewrite decide_False by lia.
  by apply norm_pdf_bounds.
Qed.

(** With capacity 0 a sweep is one Bellman update of state 0 with the single
    action 0. *)
Lemma sweep_single_state (sv : solver) (delta : R) (sv' : solver) :
  solver_wf sv ->
  max_inventory (conf sv) = 0%Z ->
  sweep sv = Ok (delta, sv') ->
  value_function sv'
  = <[0%nat:=q_value (conf sv) (value_at (value_function sv)) 0 0]>
      (value_function sv).
Proof.
  intros Hwf HM Hrun. unfold sweep in Hrun.
  rewrite (wf_states _ Hwf), HM in Hrun.
  change (range (0 + 1)) with [0%Z] in Hrun. cbn [for_each] in Hrun.
  destruct (sweep_step_ok sv 0 0 Hwf) as (a & sv1 & Hstep & _ & _ & Hvf & _
                                           & Ha & _); [lia|].
  rewrite Hstep, bind_Ok in Hrun. injection Hrun as _ <-.
  rewrite Hvf. replace a with 0%Z by lia. reflexivity.
Qed.

(** The expected value of the single state: the stockout penalty of the
    demand, plus the discounted current value weighted by the demand mass. *)
Lemma q_value_single_state (c : config) (V : Z -> R) :
  max_inventory c = 0%Z ->
  q_value c V 0 0
  = - stockout_cost c
    * sum_over (range (max_demand c + 1))
        (fun d => IZR d * demand_probability c d)
    + gamma c * V 0%Z * demand_mass c.
Proof.
  intros HM. unfold q_value, demand_mass.
  rewrite <- !sum_over_scal, <- sum_over_plus.
  apply sum_over_ext. intros d Hd. apply elem_of_range in Hd.
  unfold immediate_reward, clamp. rewrite HM.
  rewrite decide_False by lia.
  replace (Z.min 0 d) with 0%Z by lia.
  replace (Z.max 0 (d - 0)) with d by lia.
  replace (Z.max 0 (Z.min 0 (0 + 0 - d))) with 0%Z by lia.
  lra.
Qed.

Lemma value_iteration_once (sv : solver) (epsilon : R) :
  solver_wf sv ->
  exists r delta sv',
    value_iteration sv epsilon 1 = Ok (r, sv')
    /\ sweep sv = Ok (delta, sv')
    /\ solver_wf sv'
    /\ conf sv' = conf sv.
Proof.
  intros Hwf.
  destruct (value_iteration_runs sv epsilon 1 Hwf ltac:(lia))
    as (k & delta & svk & r & sv' & Hrun & Hk & Hsws & Hlast & Hwf' & Hc & _).
  assert (k = 0%nat) as -> by lia. simpl in Hsws. injection Hsws as <-.
  by exists r, delta, sv'.
Qed.

(** C9 as stated fails: on the single-state solver, two calls in succession
    with [epsilon = 0.01] and [max_iterations = 1] leave different value
    tables; the second call starts from the values of the first. *)
Lemma second_call_changes_value_function :
  exists sv r1 sv1 r2 sv2,
    init single_state_config = Ok sv
    /\ value_iteration sv (1 / 100) 1 = Ok (r1, sv1)
    /\ value_iteration sv1 (1 / 100) 1 = Ok (r2, sv2)
    /\ value_function sv2 <> value_function sv1.
Proof.
  set (c := single_state_config). set (sv := zeroed c).
  assert (Hwf : solver_wf sv) by (apply zeroed_wf; simpl; lia).
  destruct (value_iteration_once sv (1 / 100) Hwf)
    as (r1 & d1 & sv1 & Hrun1 & Hsw1 & Hwf1 & Hc1).
  destruct (value_iteration_once sv1 (1 / 100) Hwf1)
    as (r2 & d2 & sv2 & Hrun2 & Hsw2 & Hwf2 & Hc2).
  exists sv, r1, sv1, r2, sv2.
  split; [reflexivity|]. split; [done|]. split; [done|].
  apply sweep_single_state in Hsw1; [|done|reflexivity].
  apply sweep_single_state in Hsw2; [|done|by rewrite Hc1].
  rewrite Hc1 in Hsw2. change (conf sv) with c in *.
  rewrite !q_value_single_state in * by reflexivity.
  set (A := sum_over (range (max_demand c + 1))
              (fun d => IZR d * demand_probability c d)) in *.
  assert (Hsd : 0 < demand_std c) by (simpl; lra).
  assert (HA : 0 < A).
  { apply Rlt_le_trans with (IZR 1 * demand_probability c 1).
    - pose proof (demand_probability_pos c 1 Hsd ltac:(lia)). lra.
    - apply (sum_over_ge_term (fun d => IZR d * demand_probability c d)).
      + intros d Hd. apply elem_of_range in Hd.
        apply Rmult_le_pos; [apply IZR_le; lia|].
        by apply demand_probability_nonneg.
      + apply elem_of_range. unfold c. rewrite max_demand_single_state. lia. }
  assert (Hmass : 0 < demand_mass c).
  { apply Rlt_le_trans with (demand_probability c 0).
    - by apply demand_probability_pos.
    - apply sum_over_ge_term.
      + intros d _. by apply demand_probability_nonneg.
      + apply elem_of_range. unfold c. rewrite max_demand_single_state. lia. }
  intros Heq.
  assert (Hv1 : value_at (value_function sv1) 0 = - stockout_cost c * A).
  { rewrite Hsw1. unfold value_at. simpl. lra. }
  assert (Hv2 : value_at (value_function sv2) 0
                = - stockout_cost c * A
                  + gamma c * value_at (value_function sv1) 0 * demand_mass c).
  { rewrite Hsw2. unfold value_at at 1.
    rewrite list_lookup_total_insert_eq; [reflexivity|].
    rewrite (wf_value _ Hwf1), Hc1. simpl. lia. }
  rewrite Heq, Hv1 in Hv2. simpl in Hv2. nra.
Qed.

(** C9, as the code has it.  Solvers freshly constructed from one
    configuration and run with the same [epsilon] and [max_iterations] return
    the same convergence record and the same tables.  A second call on the
    same solver is no repetition: it starts from the tables of the first
    call, runs at least one more sweep, and leaves the tables of
    [iterations1 + iterations2] sweeps of the zero tables. *)
Theorem value_iteration_deterministic_and_resuming (c : config) (epsilon : R)
    (max_iterations : Z) :
  (0 <= max_inventory c)%Z ->
  (1 <= max_iterations)%Z ->
  exists sv r1 sv1 r2 sv2,
    init c = Ok sv
    /\ value_iteration sv epsilon max_iterations = Ok (r1, sv1)
    /\ (forall svb, init c = Ok svb ->
          value_iteration svb epsilon max_iterations = Ok (r1, sv1))
    /\ value_iteration sv1 epsilon max_iterations = Ok (r2, sv2)
    /\ sweeps (Z.to_nat (iterations r1)) sv = Ok sv1
    /\ sweeps (Z.to_nat (iterations r1 + iterations r2)) sv = Ok sv2
    /\ (1 <= iterations r2)%Z.
Proof.
  intros HM Hn. set (sv := zeroed c).
  assert (Hwf : solver_wf sv) by (by apply zeroed_wf).
  destruct (value_iteration_runs sv epsilon max_iterations Hwf Hn)
    as (k1 & d1 & svk1 & r1 & sv1 & Hrun1 & _ & Hsws1 & Hlast1 & Hwf1 & _ & _
        & Hit1 & _).
  destruct (value_iteration_runs sv1 epsilon max_iterations Hwf1 Hn)
    as (k2 & d2 & svk2 & r2 & sv2 & Hrun2 & _ & Hsws2 & Hlast2 & _ & _ & _
        & Hit2 & _).
  pose proof (sweeps_succ_r _ _ _ _ _ Hsws1 Hlast1) as H1.
  pose proof (sweeps_succ_r _ _ _ _ _ Hsws2 Hlast2) as H2.
  exists sv, r1, sv1, r2, sv2.
  split; [apply init_ok; lia|]. split; [done|]. split.
  { intros svb Hb. rewrite init_ok in Hb by lia. by injection Hb as <-. }
  split; [done|]. split.
  { by rewrite Hit1, Nat2Z.id. }
  split.
  { rewrite Hit1, Hit2, <- Nat2Z.inj_add, Nat2Z.id.
    by apply sweeps_add with sv1. }
  lia.
Qed.

Lemma value_iteration_deterministic_and_resuming_witness :
  exists sv r1 sv1 r2 sv2,
    init default_config = Ok sv
    /\ value_iteration sv (1 / 100) 1000 = Ok (r1, sv1)
    /\ (forall svb, init default_config = Ok svb ->
          value_iteration svb (1 / 100) 1000 = Ok (r1, sv1))
    /\ value_iteration sv1 (1 / 100) 1000 = Ok (r2, sv2)
    /\ sweeps (Z.to_nat (iterations r1)) sv = Ok sv1
    /\ sweeps (Z.to_nat (iterations r1 + iterations r2)) sv = Ok sv2
    /\ (1 <= iterations r2)%Z.
Proof.
  apply (value_iteration_deterministic_and_resuming default_config
           (1 / 100) 1000).
  - simpl. lia.
  - lia.
Defined.

(** * Further properties of the solver *)

(** ** The expected value as a function of the value table *)

Lemma sum_over_le (f g : Z -> R) (l : list Z) :
  (forall d, d ∈ l -> f d <= g d) -> sum_over l f <= sum_over l g.
Proof.
  induction l as [|d l IH]; intros Hfg; simpl; [lra|].
  assert (f d <= g d) by (apply Hfg; left).
  assert (sum_over l f <= sum_over l g)
    by (apply IH; intros; apply Hfg; by right).
  unfold sum_over in *. lra.
Qed.

(** The expected value reads the value table at states [0..max_inventory]
    only. *)
Lemma q_value_ext (c : config) (V W : Z -> R) (s a : Z) :
  (0 <= max_inventory c)%Z ->
  (forall s', (0 <= s' <= max_inventory c)%Z -> V s' = W s') ->
  q_value c V s a = q_value c W s a.
Proof.
  intros HM HVW. unfold q_value. apply sum_over_ext. intros d _.
  rewrite HVW; [reflexivity|]. by apply clamp_in_range.
Qed.

Lemma Rabs_le_bounds (x b : R) : Rabs x <= b -> - b <= x <= b.
Proof. unfold Rabs. destruct (Rcase_abs x); lra. Qed.

Lemma q_value_le_shift (c : config) (V W : Z -> R) (s a : Z) (B : R) :
  (0 <= max_inventory c)%Z ->
  0 < demand_std c ->
  0 <= gamma c ->
  (forall s', (0 <= s' <= max_inventory c)%Z -> V s' <= W s' + B) ->
  q_value c V s a <= q_value c W s a + gamma c * demand_mass c * B.
Proof.
  intros HM Hsd Hg HVW.
  replace (q_value c W s a + gamma c * demand_mass c * B)
    with (sum_over (range (max_demand c + 1))
            (fun d => demand_probability c d
                      * (immediate_reward c s a d
                         + gamma c * W (clamp c (s + a - d)))
                      + (gamma c * B) * demand_probability c d)).
  2:{ rewrite sum_over_plus, sum_over_scal. unfold q_value, demand_mass. lra. }
  unfold q_value. apply sum_over_le. intros d _.
  pose proof (demand_probability_nonneg c d Hsd) as Hp.
  pose proof (HVW (clamp c (s + a - d)) (clamp_in_range c _ HM)) as Hv.
  assert (Hpg : 0 <= demand_probability c d * gamma c)
    by (by apply Rmult_le_pos).
  nra.
Qed.

Lemma q_value_abs_diff (c : config) (V W : Z -> R) (s a : Z) (B : R) :
  (0 <= max_inventory c)%Z ->
  0 < demand_std c ->
  0 <= gamma c ->
  (forall s', (0 <= s' <= max_inventory c)%Z -> Rabs (V s' - W s') <= B) ->
  Rabs (q_value c V s a - q_value c W s a) <= gamma c * demand_mass c * B.
Proof.
  intros HM Hsd Hg HVW.
  assert (H1 : q_value c V s a
               <= q_value c W s a + gamma c * demand_mass c * B).
  { apply q_value_le_shift; try done. intros s' Hs'.
    specialize (HVW s' Hs'). apply Rabs_le_bounds in HVW. lra. }
  assert (H2 : q_value c W s a
               <= q_value c V s a + gamma c * demand_mass c * B).
  { apply q_value_le_shift; try done. intros s' Hs'.
    specialize (HVW s' Hs'). apply Rabs_le_bounds in HVW. lra. }
  apply Rabs_le. lra.
Qed.

(** X1.  The expected value of an action is Lipschitz in the value table:
    if two tables differ by at most [B] on the states [0..max_inventory],
    the expected values of any state and action differ by at most
    [gamma * demand_mass * B] (for [gamma >= 0] and [demand_std > 0]). *)
Theorem q_value_lipschitz (c : config) (V W : Z -> R) (s a : Z) (B : R) :
  (0 <= max_inventory c)%Z ->
  0 < demand_std c ->
  0 <= gamma c ->
  (forall s', (0 <= s' <= max_inventory c)%Z -> Rabs (V s' - W s') <= B) ->
  Rabs (q_value c V s a - q_value c W s a) <= gamma c * demand_mass c * B.
Proof. apply q_value_abs_diff. Qed.

Lemma q_value_lipschitz_witness :
  Rabs (q_value default_config (fun _ => 1) 40 25
        - q_value default_config (fun _ => 0) 40 25)
  <= 95 / 100 * demand_mass default_config * 1.
Proof.
  apply (q_value_lipschitz default_config (fun _ => 1) (fun _ => 0) 40 25 1).
  - simpl. lia.
  - simpl. lra.
  - simpl. lra.
  - intros s' _. rewrite Rabs_right; lra.
Defined.

(** X2.  The Bellman update is a contraction in the value table: on two
    solvers of one configuration whose value tables differ by at most [B],
    the values that [bellman_update] returns for a state differ by at most
    [gamma * demand_mass * B]. *)
Theorem bellman_update_contraction (sv1 sv2 : solver) (s : Z) (B : R) :
  solver_wf sv1 ->
  solver_wf sv2 ->
  conf sv1 = conf sv2 ->
  0 < demand_std (conf sv1) ->
  0 <= gamma (conf sv1) ->
  (0 <= s <= max_inventory (conf sv1))%Z ->
  (forall s', (0 <= s' <= max_inventory (conf sv1))%Z ->
     Rabs (value_at (value_function sv1) s'
           - value_at (value_function sv2) s') <= B) ->
  exists v1 a1 sv1' v2 a2 sv2',
    bellman_update sv1 s = Ok (Fin v1, a1, sv1')
    /\ bellman_update sv2 s = Ok (Fin v2, a2, sv2')
    /\ Rabs (v1 - v2) <= gamma (conf sv1) * demand_mass (conf sv1) * B.
Proof.
  intros Hwf1 Hwf2 Hc Hsd Hg Hs HB.
  destruct (bellman_update_spec sv1 s Hwf1 Hs)
    as (a1 & q1 & Hrun1 & _ & Ha1 & Hmax1 & _).
  destruct (bellman_update_spec sv2 s Hwf2 ltac:(by rewrite <- Hc))
    as (a2 & q2 & Hrun2 & _ & Ha2 & Hmax2 & _).
  rewrite <- Hc in *.
  set (Q1 := q_value (conf sv1) (value_at (value_function sv1)) s) in *.
  set (Q2 := q_value (conf sv1) (value_at (value_function sv2)) s) in *.
  assert (HL : forall a, Rabs (Q1 a - Q2 a)
                         <= gamma (conf sv1) * demand_mass (conf sv1) * B).
  { intros a. apply q_value_abs_diff; try done. apply Hwf1. }
  eexists _, a1, _, _, a2, _. split; [exact Hrun1|]. split; [exact Hrun2|].
  pose proof (Rabs_le_bounds _ _ (HL a1)) as H1.
  pose proof (Rabs_le_bounds _ _ (HL a2)) as H2.
  pose proof (Hmax1 a2 Ha2) as H3. pose proof (Hmax2 a1 Ha1) as H4.
  apply Rabs_le. lra.
Qed.

Lemma bellman_update_contraction_witness :
  exists v1 a1 sv1' v2 a2 sv2',
    bellman_update (zeroed known_value_config) 3 = Ok (Fin v1, a1, sv1')
    /\ bellman_update
         (set_value_function (zeroed known_value_config) (replicate 11 1)) 3
       = Ok (Fin v2, a2, sv2')
    /\ Rabs (v1 - v2) <= 95 / 100 * demand_mass known_value_config * 1.
Proof.
  apply (bellman_update_contraction (zeroed known_value_config)
           (set_value_function (zeroed known_value_config) (replicate 11 1))
           3 1).
  - wf_by_evaluation.
  - wf_by_evaluation.
  - reflexivity.
  - simpl. lra.
  - simpl. lra.
  - simpl. lia.
  - intros s' Hs'. simpl in Hs'. unfold value_at.
    change (value_function (zeroed known_value_config))
      with (replicate 11 0).
    change (value_function (set_value_function _ (replicate 11 1)))
      with (replicate 11 1).
    rewrite !lookup_total_replicate_2 by lia.
    rewrite Rabs_left; lra.
Defined.

(** ** A sweep updates the tables in place *)

Lemma in_place_table_step (c : config) (old cur new : list R) (n s a : Z)
    (x : R) :
  (0 <= max_inventory c)%Z ->
  (0 <= n < Z.of_nat (length cur))%Z ->
  new = <[Z.to_nat n:=x]> cur ->
  (s <= n)%Z ->
  (forall s', (n <= s')%Z -> value_at cur s' = value_at old s') ->
  q_value c (in_place_table old new s) s a
  = q_value c (in_place_table old cur s) s a.
Proof.
  intros HM Hn -> Hs Hrest. apply q_value_ext; [done|].
  intros s' Hs'. unfold in_place_table.
  destruct (decide (s' < s)%Z); [|reflexivity].
  rewrite value_at_insert by lia. by rewrite decide_False by lia.
Qed.

Lemma in_place_table_current (c : config) (old cur : list R) (n a : Z) :
  (0 <= max_inventory c)%Z ->
  (forall s', (n <= s')%Z -> value_at cur s' = value_at old s') ->
  q_value c (in_place_table old cur n) n a = q_value c (value_at cur) n a.
Proof.
  intros HM Hrest. apply q_value_ext; [done|].
  intros s' Hs'. unfold in_place_table.
  destruct (decide (s' < n)%Z); [reflexivity|]. symmetry. apply Hrest. lia.
Qed.

Lemma sweep_prefix_in_place (sv : solver) (n : nat) :
  solver_wf sv ->
  (Z.of_nat n <= max_inventory (conf sv) + 1)%Z ->
  exists delta sv',
    for_each (range (Z.of_nat n)) sweep_step (0, sv) = Ok (delta, sv')
    /\ solver_wf sv'
    /\ conf sv' = conf sv
    /\ (forall s, (Z.of_nat n <= s)%Z ->
          value_at (value_function sv') s = value_at (value_function sv) s)
    /\ (forall s, (0 <= s < Z.of_nat n)%Z ->
          let Q := q_value (conf sv)
                     (in_place_table (value_function sv)
                        (value_function sv') s) s in
          value_at (value_function sv') s = Q (policy_at (policy sv') s)
          /\ (0 <= policy_at (policy sv') s <= max_inventory (conf sv) - s)%Z
          /\ (forall a, (0 <= a <= max_inventory (conf sv) - s)%Z ->
                Q a <= value_at (value_function sv') s)
          /\ (forall a, (0 <= a < policy_at (policy sv') s)%Z ->
                Q a < value_at (value_function sv') s)).
Proof.
  intros Hwf Hn. pose proof (wf_capacity _ Hwf) as HM.
  induction n as [|n IH].
  - exists 0, sv. split; [reflexivity|]. split; [done|]. split; [done|].
    split; [done|]. intros s Hs. lia.
  - destruct IH as (delta & sv1 & Hrun & Hwf1 & Hc1 & Hrest & Hgs); [lia|].
    assert (Hfor : for_each (range (Z.of_nat (S n))) sweep_step (0, sv)
                   = sweep_step (delta, sv1) (Z.of_nat n)).
    { rewrite Nat2Z.inj_succ, <- Z.add_1_r, range_snoc, for_each_snoc by lia.
      by rewrite Hrun, bind_Ok. }
    rewrite Hfor. clear Hfor.
    destruct (sweep_step_ok sv1 delta (Z.of_nat n) Hwf1)
      as (a & sv2 & Hstep & Hwf2 & Hc2 & Hvf2 & Hp2 & Ha & Hmax & Hmin);
      [rewrite Hc1; lia|].
    rewrite Hstep. rewrite Hc1 in *.
    pose proof (wf_value _ Hwf1) as Hlv. pose proof (wf_policy _ Hwf1) as Hlp.
    rewrite Hc1 in Hlv, Hlp.
    set (x := q_value (conf sv) (value_at (value_function sv1)) (Z.of_nat n) a)
      in *.
    assert (Hnr : (0 <= Z.of_nat n < Z.of_nat (length (value_function sv1)))%Z)
      by lia.
    eexists _, sv2. split; [reflexivity|]. split; [done|].
    split; [congruence|]. split.
    { intros s Hs. rewrite Hvf2, value_at_insert by lia.
      rewrite decide_False by lia. apply Hrest. lia. }
    intros s Hs.
    destruct (decide (s = Z.of_nat n)) as [->|Hne].
    + assert (HQ : forall a',
                q_value (conf sv)
                  (in_place_table (value_function sv) (value_function sv2)
                     (Z.of_nat n)) (Z.of_nat n) a'
                = q_value (conf sv) (value_at (value_function sv1))
                    (Z.of_nat n) a').
      { intros a'.
        rewrite (in_place_table_step (conf sv) _ (value_function sv1) _
                   (Z.of_nat n) (Z.of_nat n) a' x HM Hnr Hvf2 ltac:(lia) Hrest).
        by apply in_place_table_current. }
      cbv zeta.
      assert (Hv : value_at (value_function sv2) (Z.of_nat n) = x).
      { rewrite Hvf2, value_at_insert by lia. by rewrite decide_True. }
      assert (Hp : policy_at (policy sv2) (Z.of_nat n) = a).
      { rewrite Hp2, policy_at_insert by lia. by rewrite decide_True. }
      rewrite Hv, Hp. split; [by rewrite HQ|]. split; [done|]. split.
      * intros a' Ha'. rewrite HQ. by apply Hmax.
      * intros a' Ha'. rewrite HQ. by apply Hmin.
    + destruct (Hgs s ltac:(lia)) as (Hval & Hpr & Hmx & Hmn).
      assert (HQ : forall a',
                q_value (conf sv)
                  (in_place_table (value_function sv) (value_function sv2) s)
                  s a'
                = q_value (conf sv)
                    (in_place_table (value_function sv) (value_function sv1) s)
                    s a').
      { intros a'.
        apply (in_place_table_step (conf sv) _ (value_function sv1) _
                 (Z.of_nat n) s a' x HM Hnr Hvf2 ltac:(lia) Hrest). }
      cbv zeta.
      assert (Hv : value_at (value_function sv2) s
                   = value_at (value_function sv1) s).
      { rewrite Hvf2, value_at_insert by lia. by rewrite decide_False. }
      assert (Hp : policy_at (policy sv2) s = policy_at (policy sv1) s).
      { rewrite Hp2, policy_at_insert by lia. by rewrite decide_False. }
      rewrite Hv, Hp. split; [by rewrite HQ|]. split; [done|]. split.
      * intros a' Ha'. rewrite HQ. by apply Hmx.
      * intros a' Ha'. rewrite HQ. by apply Hmn.
Qed.

Lemma sweep_in_place_spec (sv : solver) :
  solver_wf sv ->
  exists delta sv',
    sweep sv = Ok (delta, sv')
    /\ forall s, (0 <= s <= max_inventory (conf sv))%Z ->
         let Q := q_value (conf sv)
                    (in_place_table (value_function sv)
                       (value_function sv') s) s in
         value_at (value_function sv') s = Q (policy_at (policy sv') s)
         /\ (0 <= policy_at (policy sv') s <= max_inventory (conf sv) - s)%Z
         /\ (forall a, (0 <= a <= max_inventory (conf sv) - s)%Z ->
               Q a <= value_at (value_function sv') s)
         /\ (forall a, (0 <= a < policy_at (policy sv') s)%Z ->
               Q a < value_at (value_function sv') s).
Proof.
  intros Hwf. pose proof (wf_capacity _ Hwf) as HM.
  destruct (sweep_prefix_in_place sv
              (Z.to_nat (max_inventory (conf sv) + 1)) Hwf)
    as (delta & sv' & Hrun & _ & _ & _ & Hgs); [lia|].
  rewrite Z2Nat.id in * by lia.
  exists delta, sv'. unfold sweep. rewrite (wf_states _ Hwf).
  split; [done|]. intros s Hs. apply Hgs. lia.
Qed.

(** X3.  With [demand_std > 0], a sweep is an in-place (Gauss-Seidel)
    update: it always completes, and for every state [s] the new
    [value_function[s]] is the maximum over
    the feasible actions of the expected value computed from the table in
    which the states below [s] already hold their new values and the others
    their old ones; [policy[s]] is the least action attaining it. *)
Theorem sweep_in_place (sv : solver) :
  solver_wf sv ->
  0 < demand_std (conf sv) ->
  exists delta sv',
    sweep sv = Ok (delta, sv')
    /\ forall s, (0 <= s <= max_inventory (conf sv))%Z ->
         let Q := q_value (conf sv)
                    (in_place_table (value_function sv)
                       (value_function sv') s) s in
         value_at (value_function sv') s = Q (policy_at (policy sv') s)
         /\ (0 <= policy_at (policy sv') s <= max_inventory (conf sv) - s)%Z
         /\ (forall a, (0 <= a <= max_inventory (conf sv) - s)%Z ->
               Q a <= value_at (value_function sv') s)
         /\ (forall a, (0 <= a < policy_at (policy sv') s)%Z ->
               Q a < value_at (value_function sv') s).
Proof. intros Hwf _. by apply sweep_in_place_spec. Qed.

Lemma sweep_in_place_witness :
  exists delta sv',
    sweep order_up_to_five = Ok (delta, sv')
    /\ forall s, (0 <= s <= max_inventory (conf order_up_to_five))%Z ->
         let Q := q_value (conf order_up_to_five)
                    (in_place_table (value_function order_up_to_five)
                       (value_function sv') s) s in
         value_at (value_function sv') s = Q (policy_at (policy sv') s)
         /\ (0 <= policy_at (policy sv') s
             <= max_inventory (conf order_up_to_five) - s)%Z
         /\ (forall a,
               (0 <= a <= max_inventory (conf order_up_to_five) - s)%Z ->
               Q a <= value_at (value_function sv') s)
         /\ (forall a, (0 <= a < policy_at (policy sv') s)%Z ->
               Q a < value_at (value_function sv') s).
Proof.
  apply (sweep_in_place order_up_to_five).
  - wf_by_evaluation.
  - simpl. lra.
Defined.

(** X4.  The [delta] of a sweep is the largest change of a value: it is not
    negative, no state's value moved by more, and unless it is [0] some
    state's value moved by exactly that much.  The sweep keeps the
    configuration, the states and the shape of the tables. *)
Theorem sweep_delta_largest_change (sv : solver) :
  solver_wf sv ->
  exists delta sv',
    sweep sv = Ok (delta, sv')
    /\ 0 <= delta
    /\ (forall s, (0 <= s <= max_inventory (conf sv))%Z ->
          Rabs (value_at (value_function sv) s
                - value_at (value_function sv') s) <= delta)
    /\ (delta = 0 \/
        exists s, (0 <= s <= max_inventory (conf sv))%Z
                  /\ delta = Rabs (value_at (value_function sv) s
                                   - value_at (value_function sv') s))
    /\ solver_wf sv'
    /\ conf sv' = conf sv
    /\ states sv' = states sv.
Proof.
  intros Hwf.
  destruct (sweep_ok sv Hwf)
    as (delta & sv' & Hrun & Hwf' & Hc & _ & Hd0 & Hdmax & Hdwit).
  exists delta, sv'. split; [done|]. split; [done|]. split; [done|].
  split; [done|]. split; [done|]. split; [done|].
  by rewrite (wf_states _ Hwf'), (wf_states _ Hwf), Hc.
Qed.

Lemma sweep_delta_largest_change_witness :
  exists delta sv',
    sweep order_up_to_five = Ok (delta, sv')
    /\ 0 <= delta
    /\ (forall s, (0 <= s <= max_inventory (conf order_up_to_five))%Z ->
          Rabs (value_at (value_function order_up_to_five) s
                - value_at (value_function sv') s) <= delta)
    /\ (delta = 0 \/
        exists s, (0 <= s <= max_inventory (conf order_up_to_five))%Z
                  /\ delta = Rabs (value_at (value_function order_up_to_five) s
                                   - value_at (value_function sv') s))
    /\ solver_wf sv'
    /\ conf sv' = conf order_up_to_five
    /\ states sv' = states order_up_to_five.
Proof.
  apply (sweep_delta_largest_change order_up_to_five). wf_by_evaluation.
Defined.

(** ** The Q-value table *)

Lemma setitem2_value (m : list (list R)) (i j : Z) (x : R) (n : nat) :
  (0 <= i < Z.of_nat (length m))%Z ->
  Forall (fun row : list R => length row = n) m ->
  (0 <= j < Z.of_nat n)%Z ->
  setitem2 m i j x
  = Ok (<[Z.to_nat i:=<[Z.to_nat j:=x]> (m !!! Z.to_nat i)]> m).
Proof.
  intros Hi Hrows Hj. unfold setitem2.
  rewrite getitem_in_range by done. rewrite bind_Ok.
  assert (Hlen : length (m !!! Z.to_nat i) = n).
  { apply (Forall_lookup_1 _ _ (Z.to_nat i) _ Hrows).
    apply list_lookup_lookup_total_lt. lia. }
  rewrite setitem_in_range by lia. rewrite bind_Ok.
  by rewrite setitem_in_range.
Qed.

Lemma q_at_insert (q : list (list R)) (s a s' a' : Z) (x : R) (n : nat) :
  (0 <= s < Z.of_nat (length q))%Z ->
  Forall (fun row : list R => length row = n) q ->
  (0 <= a < Z.of_nat n)%Z ->
  (0 <= s')%Z -> (0 <= a')%Z ->
  q_at (<[Z.to_nat s:=<[Z.to_nat a:=x]> (q !!! Z.to_nat s)]> q) s' a'
  = if decide (s' = s /\ a' = a) then x else q_at q s' a'.
Proof.
  intros Hs Hrows Ha Hs' Ha'. unfold q_at.
  assert (Hlen : length (q !!! Z.to_nat s) = n).
  { apply (Forall_lookup_1 _ _ (Z.to_nat s) _ Hrows).
    apply list_lookup_lookup_total_lt. lia. }
  destruct (decide (s' = s)) as [->|Hne].
  - rewrite list_lookup_total_insert_eq by lia.
    destruct (decide (a' = a)) as [->|Hna].
    + rewrite decide_True by done.
      apply list_lookup_total_insert_eq. lia.
    + rewrite decide_False by (intros [_ ?]; done).
      apply list_lookup_total_insert_ne. lia.
  - rewrite decide_False by (intros [? _]; done).
    rewrite list_lookup_total_insert_ne by lia. reflexivity.
Qed.

Lemma bellman_scan_q_values (sv : solver) (s : Z) (n : nat) :
  solver_wf sv ->
  (0 <= s <= max_inventory (conf sv))%Z ->
  (Z.of_nat n <= max_inventory (conf sv) + 1)%Z ->
  exists mv ba q,
    for_each (range (Z.of_nat n)) (bellman_step s) (NegInf, 0%Z, sv)
    = Ok (mv, ba, set_q_values sv q)
    /\ solver_wf (set_q_values sv q)
    /\ forall s' a', (0 <= s')%Z -> (0 <= a')%Z ->
         q_at q s' a'
         = if decide (s' = s /\ (a' < Z.of_nat n)%Z)
           then q_value (conf sv) (value_at (value_function sv)) s a'
           else q_at (q_values sv) s' a'.
Proof.
  intros Hwf Hs Hn. induction n as [|n IH].
  - exists NegInf, 0%Z, (q_values sv). split; [|split].
    + destruct sv; reflexivity.
    + destruct sv; exact Hwf.
    + intros s' a' Hs' Ha'. by rewrite decide_False by lia.
  - destruct IH as (mv & ba & q & Hrun & Hwf' & Hq); [lia|].
    rewrite Nat2Z.inj_succ, <- Z.add_1_r, range_snoc, for_each_snoc by lia.
    rewrite Hrun, bind_Ok.
    pose proof (wf_q_rows _ Hwf') as Hrows. pose proof (wf_q_cols _ Hwf') as Hcols.
    pose proof (wf_capacity _ Hwf) as HM.
    simpl in Hrows, Hcols.
    set (x := q_value (conf sv) (value_at (value_function sv)) s (Z.of_nat n)).
    set (q' := <[Z.to_nat s:=<[Z.to_nat (Z.of_nat n):=x]> (q !!! Z.to_nat s)]> q).
    assert (Hstep : bellman_step s (mv, ba, set_q_values sv q) (Z.of_nat n)
                    = Ok (if gt_xfloat x mv
                          then (Fin x, Z.of_nat n, set_q_values sv q')
                          else (mv, ba, set_q_values sv q'))).
    { unfold bellman_step.
      rewrite expected_value_ok by apply Hwf'. rewrite bind_Ok.
      change (q_values (set_q_values sv q)) with q.
      change (q_value _ _ s (Z.of_nat n)) with x.
      rewrite (setitem2_value q s (Z.of_nat n) x
                 (Z.to_nat (max_inventory (conf sv) + 1))) by (done || lia).
      rewrite bind_Ok. fold q'. destruct (gt_xfloat x mv); reflexivity. }
    assert (Hwf'' : solver_wf (set_q_values sv q')).
    { destruct Hwf'. constructor; simpl in *; try done.
      - unfold q'. by rewrite length_insert.
      - unfold q'. apply Forall_insert; [done|]. rewrite length_insert.
        apply (Forall_lookup_1 _ _ (Z.to_nat s) _ Hcols).
        apply list_lookup_lookup_total_lt. lia. }
    assert (Hq' : forall s' a', (0 <= s')%Z -> (0 <= a')%Z ->
              q_at q' s' a'
              = if decide (s' = s /\ (a' < Z.of_nat n + 1)%Z)
                then q_value (conf sv) (value_at (value_function sv)) s a'
                else q_at (q_values sv) s' a').
    { intros s' a' Hs' Ha'. unfold q'.
      rewrite (q_at_insert q s (Z.of_nat n) s' a' x
                 (Z.to_nat (max_inventory (conf sv) + 1))) by (done || lia).
      rewrite Hq by done.
      destruct (decide (s' = s /\ a' = Z.of_nat n)) as [[-> ->]|Hne].
      - by rewrite decide_True by lia.
      - destruct (decide (s' = s /\ (a' < Z.of_nat n)%Z)) as [[-> Hlt]|Hnlt].
        + by rewrite decide_True by lia.
        + rewrite decide_False; [done|]. intros [-> Hlt].
          destruct (decide (a' = Z.of_nat n)) as [->|?]; [by apply Hne|].
          apply Hnlt. split; [done|lia]. }
    rewrite Hstep.
    destruct (gt_xfloat x mv); eexists _, _, q';
      (split; [reflexivity|split; [exact Hwf''|exact Hq']]).
Qed.

(** X5.  [bellman_update] records the expected value of every feasible action
    of its state in the Q-value table and changes no other entry. *)
Theorem bellman_update_q_values (sv : solver) (s : Z) :
  solver_wf sv ->
  (0 <= s <= max_inventory (conf sv))%Z ->
  exists v a sv',
    bellman_update sv s = Ok (v, a, sv')
    /\ (forall a', (0 <= a' <= max_inventory (conf sv) - s)%Z ->
          q_at (q_values sv') s a'
          = q_value (conf sv) (value_at (value_function sv)) s a')
    /\ (forall s' a', (0 <= s')%Z -> (0 <= a')%Z ->
          s' <> s \/ (max_inventory (conf sv) - s < a')%Z ->
          q_at (q_values sv') s' a' = q_at (q_values sv) s' a').
Proof.
  intros Hwf Hs. unfold bellman_update. rewrite Z.min_l by lia.
  destruct (bellman_scan_q_values sv s
              (Z.to_nat (max_inventory (conf sv) - s + 1)))
    as (mv & ba & q & Hrun & _ & Hq); [done|done|lia|].
  rewrite Z2Nat.id in * by lia.
  exists mv, ba, (set_q_values sv q). split; [exact Hrun|]. split.
  - intros a' Ha'. simpl. rewrite Hq by lia. by rewrite decide_True by lia.
  - intros s' a' Hs' Ha' Hout. simpl. rewrite Hq by lia.
    by rewrite decide_False by lia.
Qed.

Lemma bellman_update_q_values_witness :
  exists v a sv',
    bellman_update order_up_to_five 3 = Ok (v, a, sv')
    /\ (forall a', (0 <= a' <= max_inventory (conf order_up_to_five) - 3)%Z ->
          q_at (q_values sv') 3 a'
          = q_value (conf order_up_to_five)
              (value_at (value_function order_up_to_five)) 3 a')
    /\ (forall s' a', (0 <= s')%Z -> (0 <= a')%Z ->
          s' <> 3%Z \/ (max_inventory (conf order_up_to_five) - 3 < a')%Z ->
          q_at (q_values sv') s' a' = q_at (q_values order_up_to_five) s' a').
Proof.
  apply (bellman_update_q_values order_up_to_five 3).
  - wf_by_evaluation.
  - simpl. lia.
Defined.

(** ** The transition model, state by state *)

(** X6.  A transition probability is never negative and never above the
    total demand mass, and it is [0] for a [next_state] outside
    [0..max_inventory]: the clamp never produces such a state. *)
Theorem transition_probability_bounds (c : config) (s a ns : Z) :
  (0 <= max_inventory c)%Z ->
  0 < demand_std c ->
  0 <= transition_probability c s a ns <= demand_mass c
  /\ ((ns < 0 \/ max_inventory c < ns)%Z ->
      transition_probability c s a ns = 0).
Proof.
  intros HM Hsd. rewrite transition_probability_sum. split; [split|].
  - apply sum_over_nonneg. intros d _.
    destruct (decide (clamp c (s + a - d) = ns)); [|lra].
    by apply demand_probability_nonneg.
  - unfold demand_mass. apply sum_over_le. intros d _.
    pose proof (demand_probability_nonneg c d Hsd).
    destruct (decide (clamp c (s + a - d) = ns)); lra.
  - intros Hout.
    rewrite (sum_over_ext _ (fun _ => 0)); [apply sum_over_zero|].
    intros d _. pose proof (clamp_in_range c (s + a - d) HM).
    by rewrite decide_False by lia.
Qed.

Lemma transition_probability_bounds_witness :
  0 <= transition_probability default_config 40 25 101
  <= demand_mass default_config
  /\ transition_probability default_config 40 25 101 = 0.
Proof.
  destruct (transition_probability_bounds default_config 40 25 101)
    as [Hb Hz].
  - simpl. lia.
  - simpl. lra.
  - split; [exact Hb|]. apply Hz. right. simpl. lia.
Defined.

Lemma sum_over_filter (P : Z -> Prop) `{forall d, Decision (P d)}
    (f : Z -> R) (l : list Z) :
  sum_over (filter P l) f = sum_over l (fun d => if decide (P d) then f d else 0).
Proof.
  induction l as [|d l IH]; [reflexivity|].
  destruct (decide (P d)) as [Hd|Hd].
  - rewrite filter_cons_True by done. simpl. rewrite decide_True by done.
    unfold sum_over in *. by rewrite IH.
  - rewrite filter_cons_False by done. simpl. rewrite decide_False by done.
    unfold sum_over in *. rewrite IH. lra.
Qed.

(** X7.  Which demands lead where.  An interior state
    [0 < next_state < max_inventory] is reached by the single demand
    [s + a - next_state], so its transition probability is the probability of
    that demand if it lies in the truncated support and [0] otherwise.
    State [0] collects every demand of the support that is at least [s + a]
    (with [max_inventory > 0]). *)
Theorem transition_probability_by_demand (c : config) (s a ns : Z) :
  ((0 < ns < max_inventory c)%Z ->
   transition_probability c s a ns
   = if decide (0 <= s + a - ns <= max_demand c)%Z
     then demand_probability c (s + a - ns) else 0)
  /\ ((0 < max_inventory c)%Z ->
      transition_probability c s a 0
      = sum_over (filter (fun d => (s + a <= d)%Z) (range (max_demand c + 1)))
          (demand_probability c)).
Proof.
  split.
  - intros Hns. rewrite transition_probability_sum.
    destruct (decide (0 <= s + a - ns <= max_demand c)%Z) as [Hin|Hout].
    + rewrite (sum_over_single _ _ (s + a - ns)).
      * rewrite decide_True; [reflexivity|]. unfold clamp. lia.
      * apply NoDup_seqZ.
      * apply elem_of_range. lia.
      * intros d _ Hne. rewrite decide_False; [reflexivity|].
        unfold clamp. lia.
    + rewrite (sum_over_ext _ (fun _ => 0)); [apply sum_over_zero|].
      intros d Hd. apply elem_of_range in Hd.
      rewrite decide_False; [reflexivity|]. unfold clamp. lia.
  - intros HM. rewrite transition_probability_sum, sum_over_filter.
    apply sum_over_ext. intros d _.
    destruct (decide (s + a <= d)%Z) as [Hle|Hgt].
    + rewrite decide_True; [reflexivity|]. unfold clamp. lia.
    + rewrite decide_False; [reflexivity|]. unfold clamp. lia.
Qed.

Lemma transition_probability_by_demand_witness :
  transition_probability default_config 40 25 60
  = (if decide (0 <= 40 + 25 - 60 <= max_demand default_config)%Z
     then demand_probability default_config (40 + 25 - 60) else 0)
  /\ transition_probability default_config 40 25 0
     = sum_over (filter (fun d => (40 + 25 <= d)%Z)
                   (range (max_demand default_config + 1)))
         (demand_probability default_config).
Proof.
  destruct (transition_probability_by_demand default_config 40 25 60)
    as [Hi Hz].
  split; [apply Hi; simpl; lia|apply Hz; simpl; lia].
Defined.

(** ** Edges of the state space *)

(** X8.  Above the capacity (and for any state when the capacity is
    negative) [bellman_update] scans no action: it returns [-inf] with action
    [0] and leaves the solver as it was. *)
Theorem bellman_update_no_action (sv : solver) (s : Z) :
  (max_inventory (conf sv) < s \/ max_inventory (conf sv) < 0)%Z ->
  bellman_update sv s = Ok (NegInf, 0%Z, sv).
Proof.
  intros Hs. unfold bellman_update, range. by rewrite seqZ_nil by lia.
Qed.

Lemma bellman_update_no_action_witness :
  bellman_update (zeroed default_config) 101
  = Ok (NegInf, 0%Z, zeroed default_config).
Proof.
  apply (bellman_update_no_action (zeroed default_config) 101).
  left. simpl. lia.
Defined.

(** X9.  With [max_inventory = -1] the constructor succeeds and builds empty
    tables, but every call of [value_iteration] that allows an iteration
    raises [ValueError]: the sweep has no state to visit and the history
    entry takes [np.max] of an empty value table. *)
Theorem value_iteration_empty_state_space (c : config) (epsilon : R)
    (max_iterations : Z) :
  max_inventory c = (-1)%Z ->
  (1 <= max_iterations)%Z ->
  exists sv,
    init c = Ok sv
    /\ value_function sv = []
    /\ value_iteration sv epsilon max_iterations = Raise ValueError.
Proof.
  intros HM Hn. exists (zeroed c). split; [apply init_ok; lia|].
  assert (Hst : states (zeroed c) = []) by (simpl; by rewrite HM).
  assert (Hvf : value_function (zeroed c) = []) by (simpl; by rewrite HM).
  split; [done|]. unfold value_iteration, range.
  rewrite seqZ_cons by lia. cbn [vi_loop l_solver].
  unfold sweep. rewrite Hst. cbn [for_each]. rewrite bind_Ok.
  by rewrite Hvf.
Qed.

Lemma value_iteration_empty_state_space_witness :
  exists sv,
    init {| max_inventory := -1; order_cost := 50; holding_cost := 2;
            stockout_cost := 20; selling_price := 15; demand_mean := 10;
            demand_std := 3; gamma := 95 / 100 |} = Ok sv
    /\ value_function sv = []
    /\ value_iteration sv (1 / 100) 1000 = Raise ValueError.
Proof.
  apply (value_iteration_empty_state_space
           {| max_inventory := -1; order_cost := 50; holding_cost := 2;
              stockout_cost := 20; selling_price := 15; demand_mean := 10;
              demand_std := 3; gamma := 95 / 100 |} (1 / 100) 1000).
  - reflexivity.
  - lia.
Defined.

(** ** The summary of a feasible policy *)

Lemma foldr_add_map_bounds (f : Z -> Z) (l : list Z) (lo hi : Z) :
  (forall x, x ∈ l -> (lo <= f x <= hi)%Z) ->
  (lo * Z.of_nat (length l) <= foldr Z.add 0 (map f l)
   <= hi * Z.of_nat (length l))%Z.
Proof.
  induction l as [|x l IH]; intros Hf; simpl length; simpl foldr; [simpl; lia|].
  assert (lo <= f x <= hi)%Z by (apply Hf; left).
  assert (lo * Z.of_nat (length l) <= foldr Z.add 0 (map f l)
          <= hi * Z.of_nat (length l))%Z
    by (apply IH; intros; apply Hf; by right).
  simpl map. simpl foldr. lia.
Qed.

Lemma compute_s_S_policy_feasible (sv : solver) :
  solver_wf sv ->
  policy_feasible sv ->
  exists s S,
    compute_s_S_policy sv = Ok (s, S)
    /\ (0 <= s <= max_inventory (conf sv))%Z
    /\ (0 <= S <= max_inventory (conf sv))%Z
    /\ (ordering_states sv <> [] ->
        (policy_at (policy sv) s > 0)%Z
        /\ (s < max_inventory (conf sv))%Z
        /\ (1 <= S)%Z).
Proof.
  intros Hwf Hfeas. pose proof (wf_capacity _ Hwf) as HM.
  rewrite (compute_s_S_policy_eval sv (states_index_policy sv Hwf)).
  destruct (ordering_states sv) as [|x l] eqn:Hos.
  - eexists _, _. split; [reflexivity|].
    split; [split; [apply Z.div_pos; lia|]|split; [split|done]].
    + apply Z.div_le_upper_bound; lia.
    + apply Z.div_pos; lia.
    + apply Z.div_le_upper_bound; lia.
  - destruct (foldl_max_spec x l) as [Hmem _]. rewrite <- Hos in Hmem.
    apply (elem_of_ordering_states sv _ Hwf) in Hmem as [Hrange Hpos].
    pose proof (Hfeas _ Hrange) as Hfs.
    set (f := fun s' => (s' + policy_at (policy sv) s')%Z) in *.
    assert (Hb : (1 * Z.of_nat (length (x :: l))
                  <= foldr Z.add 0 (map f (x :: l))
                  <= max_inventory (conf sv) * Z.of_nat (length (x :: l)))%Z).
    { apply foldr_add_map_bounds. intros y Hy. rewrite <- Hos in Hy.
      apply (elem_of_ordering_states sv _ Hwf) in Hy as [Hy Hpy].
      pose proof (Hfeas _ Hy). unfold f. lia. }
    destruct (mean_floor (foldr Z.add 0%Z (map f (x :: l)))
                (length (map f (x :: l)))) as [_ Hint].
    { lia. }
    { simpl. lia. }
    unfold np_mean. rewrite Hint. rewrite length_map.
    assert (Hlen : (0 < Z.of_nat (length (x :: l)))%Z) by (simpl; lia).
    assert (H1 : (1 <= foldr Z.add 0 (map f (x :: l))
                       `div` Z.of_nat (length (x :: l)))%Z)
      by (apply Z.div_le_lower_bound; lia).
    assert (H2 : (foldr Z.add 0 (map f (x :: l))
                  `div` Z.of_nat (length (x :: l))
                  <= max_inventory (conf sv))%Z)
      by (apply Z.div_le_upper_bound; lia).
    eexists _, _. split; [reflexivity|].
    split; [done|]. split; [lia|]. intros _. split; [done|]. split; lia.
Qed.

(** X10.  The summary of a feasible policy stays inside the state space:
    [compute_s_S_policy] returns [0 <= s <= max_inventory] and
    [0 <= S <= max_inventory], and when some state orders, [s] is an ordering
    state strictly below the capacity and [S >= 1].  In particular this holds
    for the solver every return of [value_iteration] leaves. *)
Theorem compute_s_S_policy_in_state_space (sv : solver) :
  solver_wf sv ->
  (policy_feasible sv ->
   exists s S,
     compute_s_S_policy sv = Ok (s, S)
     /\ (0 <= s <= max_inventory (conf sv))%Z
     /\ (0 <= S <= max_inventory (conf sv))%Z
     /\ (ordering_states sv <> [] ->
         (policy_at (policy sv) s > 0)%Z
         /\ (s < max_inventory (conf sv))%Z
         /\ (1 <= S)%Z))
  /\ (forall epsilon max_iterations r sv',
        value_iteration sv epsilon max_iterations = Ok (r, sv') ->
        exists s S,
          compute_s_S_policy sv' = Ok (s, S)
          /\ (0 <= s <= max_inventory (conf sv))%Z
          /\ (0 <= S <= max_inventory (conf sv))%Z).
Proof.
  intros Hwf. split; [by apply compute_s_S_policy_feasible|].
  intros epsilon n r sv' Hret.
  destruct (Z_le_gt_dec n 0) as [Hle|Hgt].
  { rewrite value_iteration_no_iteration in Hret by done. discriminate. }
  destruct (value_iteration_runs sv epsilon n Hwf ltac:(lia))
    as (k & delta & svk & r' & sv'' & Hrun & _ & _ & _ & Hwf' & Hc & Hpol & _).
  rewrite Hrun in Hret. injection Hret as <- <-.
  destruct (compute_s_S_policy_feasible sv'' Hwf' Hpol)
    as (s & S & Hev & Hs & HS & _).
  rewrite Hc in *. by exists s, S.
Qed.

Lemma compute_s_S_policy_in_state_space_witness :
  (exists s S,
     compute_s_S_policy order_up_to_five = Ok (s, S)
     /\ (0 <= s <= max_inventory (conf order_up_to_five))%Z
     /\ (0 <= S <= max_inventory (conf order_up_to_five))%Z
     /\ (ordering_states order_up_to_five <> [] ->
         (policy_at (policy order_up_to_five) s > 0)%Z
         /\ (s < max_inventory (conf order_up_to_five))%Z
         /\ (1 <= S)%Z))
  /\ (forall epsilon max_iterations r sv',
        value_iteration order_up_to_five epsilon max_iterations = Ok (r, sv') ->
        exists s S,
          compute_s_S_policy sv' = Ok (s, S)
          /\ (0 <= s <= max_inventory (conf order_up_to_five))%Z
          /\ (0 <= S <= max_inventory (conf order_up_to_five))%Z).
Proof.
  destruct (compute_s_S_policy_in_state_space order_up_to_five) as [Hf Hv].
  - wf_by_evaluation.
  - split; [|exact Hv]. apply Hf.
    intros s Hs. simpl in Hs.
    assert (Hcases : (s = 0 \/ s = 1 \/ s = 2 \/ s = 3 \/ s = 4 \/ s = 5
                      \/ s = 6 \/ s = 7 \/ s = 8 \/ s = 9 \/ s = 10)%Z) by lia.
    destruct Hcases as [->|[->|[->|[->|[->|[->|[->|[->|[->|[->| ->]]]]]]]]]];
      vm_compute; split; discriminate.
Defined.

(** ** What value iteration returns *)

Lemma sweeps_wf (k : nat) (sv svk : solver) :
  solver_wf sv -> sweeps k sv = Ok svk ->
  solver_wf svk /\ conf svk = conf sv.
Proof.
  revert sv. induction k as [|k IH]; intros sv Hwf Hk; simpl in Hk.
  - by injection Hk as <-.
  - destruct (sweep_ok sv Hwf) as (d & sv1 & Hsw & Hwf1 & Hc1 & _).
    rewrite Hsw, bind_Ok in Hk. destruct (IH sv1 Hwf1 Hk) as [Hwfk Hck].
    split; [done|congruence].
Qed.

(** X11.  On a well-shaped solver [value_iteration] returns a convergence
    record exactly when [max_iterations >= 1]; for [max_iterations <= 0] it
    raises [UnboundLocalError], whatever the solver. *)
Theorem value_iteration_returns_iff (sv : solver) (epsilon : R)
    (max_iterations : Z) :
  solver_wf sv ->
  ((exists r sv', value_iteration sv epsilon max_iterations = Ok (r, sv'))
   <-> (1 <= max_iterations)%Z)
  /\ ((max_iterations <= 0)%Z ->
      value_iteration sv epsilon max_iterations = Raise UnboundLocalError).
Proof.
  intros Hwf. split; [split|].
  - intros (r & sv' & Hret). destruct (Z_le_gt_dec max_iterations 0); [|lia].
    rewrite value_iteration_no_iteration in Hret by done. discriminate.
  - intros Hn.
    destruct (value_iteration_runs sv epsilon max_iterations Hwf Hn)
      as (k & delta & svk & r & sv' & Hrun & _).
    by exists r, sv'.
  - apply value_iteration_no_iteration.
Qed.

Lemma value_iteration_returns_iff_witness :
  ((exists r sv',
      value_iteration (zeroed known_value_config) (1 / 100) 1000
      = Ok (r, sv'))
   <-> (1 <= 1000)%Z)
  /\ ((1000 <= 0)%Z ->
      value_iteration (zeroed known_value_config) (1 / 100) 1000
      = Raise UnboundLocalError).
Proof.
  apply (value_iteration_returns_iff (zeroed known_value_config)
           (1 / 100) 1000).
  wf_by_evaluation.
Defined.

(** X12.  The convergence record.  When [value_iteration] returns, the
    reported [iterations] lies between [1] and [max_iterations] and is the
    number of sweeps the tables went through, the history has one entry per
    sweep, [final_delta] is not negative, [converged] tells whether
    [final_delta < epsilon], and an unconverged run used every iteration.
    The configuration and the shape of the tables are kept. *)
Theorem value_iteration_record (sv : solver) (epsilon : R)
    (max_iterations : Z) (r : convergence) (sv' : solver) :
  solver_wf sv ->
  value_iteration sv epsilon max_iterations = Ok (r, sv') ->
  (1 <= iterations r <= max_iterations)%Z
  /\ sweeps (Z.to_nat (iterations r)) sv = Ok sv'
  /\ length (history r) = Z.to_nat (iterations r)
  /\ 0 <= final_delta r
  /\ converged r = bool_decide (final_delta r < epsilon)
  /\ (converged r = false -> iterations r = max_iterations)
  /\ solver_wf sv'
  /\ conf sv' = conf sv.
Proof.
  intros Hwf Hret.
  destruct (Z_le_gt_dec max_iterations 0) as [Hle|Hgt].
  { rewrite value_iteration_no_iteration in Hret by done. discriminate. }
  destruct (value_iteration_runs sv epsilon max_iterations Hwf ltac:(lia))
    as (k & delta & svk & r' & sv'' & Hrun & Hk & Hsws & Hlast & Hwf' & Hc
        & _ & Hit & Hfd & Hconv & Hstop & Hhist & _).
  rewrite Hrun in Hret. injection Hret as <- <-.
  destruct (sweeps_wf _ _ _ Hwf Hsws) as [Hwfk _].
  destruct (sweep_ok svk Hwfk) as (d & sv1 & Hsw & _ & _ & _ & Hd0 & _).
  rewrite Hlast in Hsw. injection Hsw as <- <-.
  rewrite Hit, Nat2Z.id.
  split; [lia|]. split; [by apply sweeps_succ_r with svk delta|].
  split; [done|]. split; [by rewrite Hfd|]. split; [by rewrite Hfd|].
  split; [done|]. by split.
Qed.

Lemma value_iteration_record_witness :
  exists r sv',
    value_iteration (zeroed known_value_config) (1 / 100) 1000 = Ok (r, sv')
    /\ (1 <= iterations r <= 1000)%Z
    /\ sweeps (Z.to_nat (iterations r)) (zeroed known_value_config) = Ok sv'
    /\ length (history r) = Z.to_nat (iterations r)
    /\ 0 <= final_delta r
    /\ converged r = bool_decide (final_delta r < 1 / 100)
    /\ (converged r = false -> iterations r = 1000%Z)
    /\ solver_wf sv'
    /\ conf sv' = conf (zeroed known_value_config).
Proof.
  assert (Hwf : solver_wf (zeroed known_value_config)) by wf_by_evaluation.
  destruct (value_iteration_runs (zeroed known_value_config) (1 / 100) 1000
              Hwf ltac:(lia))
    as (k & delta & svk & r & sv' & Hrun & _).
  exists r, sv'. split; [exact Hrun|].
  exact (value_iteration_record (zeroed known_value_config) (1 / 100) 1000
           r sv' Hwf Hrun).
Defined.

(** X13.  Value iteration stops at the first sweep whose [delta] is below
    [epsilon]: when it returns after [iterations] sweeps, the last sweep
    produced [final_delta] and the returned tables, and every earlier sweep
    had a [delta] of at least [epsilon]. *)
Theorem value_iteration_first_convergence (sv : solver) (epsilon : R)
    (max_iterations : Z) (r : convergence) (sv' : solver) :
  solver_wf sv ->
  value_iteration sv epsilon max_iterations = Ok (r, sv') ->
  (exists svk,
     sweeps (Z.to_nat (iterations r - 1)) sv = Ok svk
     /\ sweep svk = Ok (final_delta r, sv'))
  /\ (forall j, (j < Z.to_nat (iterations r - 1))%nat ->
        exists svj dj svj',
          sweeps j sv = Ok svj
          /\ sweep svj = Ok (dj, svj')
          /\ epsilon <= dj).
Proof.
  intros Hwf Hret.
  destruct (Z_le_gt_dec max_iterations 0) as [Hle|Hgt].
  { rewrite value_iteration_no_iteration in Hret by done. discriminate. }
  destruct (value_iteration_runs sv epsilon max_iterations Hwf ltac:(lia))
    as (k & delta & svk & r' & sv'' & Hrun & Hk & Hsws & Hlast & _ & _
        & _ & Hit & Hfd & _ & _ & _ & Hearly).
  rewrite Hrun in Hret. injection Hret as <- <-.
  rewrite Hit, Hfd.
  replace (Z.to_nat (Z.of_nat (S k) - 1)) with k by lia.
  split; [by exists svk|].
  intros j Hj. destruct (Hearly j Hj) as (svj & dj & svj' & H1 & H2 & H3).
  exists svj, dj, svj'. split; [done|]. split; [done|].
  by apply Rnot_lt_le.
Qed.

Lemma value_iteration_first_convergence_witness :
  exists r sv',
    value_iteration (zeroed known_value_config) (1 / 100) 1000 = Ok (r, sv')
    /\ (exists svk,
          sweeps (Z.to_nat (iterations r - 1)) (zeroed known_value_config)
          = Ok svk
          /\ sweep svk = Ok (final_delta r, sv'))
    /\ (forall j, (j < Z.to_nat (iterations r - 1))%nat ->
          exists svj dj svj',
            sweeps j (zeroed known_value_config) = Ok svj
            /\ sweep svj = Ok (dj, svj')
            /\ 1 / 100 <= dj).
Proof.
  assert (Hwf : solver_wf (zeroed known_value_config)) by wf_by_evaluation.
  destruct (value_iteration_runs (zeroed known_value_config) (1 / 100) 1000
              Hwf ltac:(lia))
    as (k & delta & svk & r & sv' & Hrun & _).
  exists r, sv'. split; [exact Hrun|].
  exact (value_iteration_first_convergence (zeroed known_value_config)
           (1 / 100) 1000 r sv' Hwf Hrun).
Defined.

(** ** The history of a run *)

Lemma foldl_Rmin_le_Rmax (l : list R) (x y : R) :
  x <= y -> foldl Rmin x l <= foldl Rmax y l.
Proof.
  revert x y. induction l as [|z l IH]; intros x y Hxy; simpl; [done|].
  apply IH. apply Rle_trans with z; [apply Rmin_r|apply Rmax_r].
Qed.

Lemma vi_loop_history (epsilon : R) (its : list Z) (st st' : vi_locals) :
  vi_loop epsilon its st = Ok st' ->
  exists new,
    l_history st' = l_history st ++ new
    /\ (forall i e, new !! i = Some e ->
          its !! i = Some (h_iteration e - 1)%Z
          /\ h_min_value e <= h_max_value e)
    /\ (its <> [] ->
        exists e, last new = Some e /\ l_delta st' = Some (h_delta e)).
Proof.
  revert st. induction its as [|it its IH]; intros st Hrun.
  - simpl in Hrun. injection Hrun as <-. exists []. rewrite app_nil_r.
    split; [done|]. split; [|done]. intros i e Hi. by destruct i.
  - simpl in Hrun.
    destruct (sweep (l_solver st)) as [[d sv1]|err]; [|discriminate].
    rewrite bind_Ok in Hrun.
    destruct (value_function sv1) as [|v vs]; [discriminate|].
    cbn [np_max np_min] in Hrun. rewrite !bind_Ok in Hrun.
    set (entry := {| h_iteration := it + 1; h_delta := d;
                     h_max_value := foldl Rmax v vs;
                     h_min_value := foldl Rmin v vs |}) in *.
    assert (Hentry : Some it = Some (h_iteration entry - 1)%Z
                     /\ h_min_value entry <= h_max_value entry).
    { split; [simpl; f_equal; lia|]. simpl. apply foldl_Rmin_le_Rmax. lra. }
    destruct (bool_decide (d < epsilon)).
    + injection Hrun as <-. exists [entry]. simpl.
      split; [done|]. split.
      * intros [|i] e Hi; simpl in Hi; [|by destruct i].
        by injection Hi as <-.
      * intros _. by exists entry.
    + destruct its as [|it' its'].
      * simpl in Hrun. injection Hrun as <-. exists [entry]. simpl.
        split; [done|]. split.
        -- intros [|i] e Hi; simpl in Hi; [|by destruct i].
           by injection Hi as <-.
        -- intros _. by exists entry.
      * destruct (IH _ Hrun) as (new & Hh & Hall & Hlast).
        destruct (Hlast ltac:(done)) as (e & He & Hd).
        exists (entry :: new). split.
        { rewrite Hh. simpl. by rewrite <- app_assoc. }
        split.
        -- intros [|i] e' Hi; simpl in Hi.
           ++ by injection Hi as <-.
           ++ by apply Hall.
        -- intros _. exists e. split; [|done].
           destruct new as [|e0 new']; [discriminate|]. exact He.
Qed.

(** X14.  The history that [value_iteration] returns numbers its entries
    [1, 2, ...] in order, every entry has [min_value <= max_value], and the
    [delta] of its last entry is the reported [final_delta]. *)
Theorem value_iteration_history (sv : solver) (epsilon : R)
    (max_iterations : Z) (r : convergence) (sv' : solver) :
  value_iteration sv epsilon max_iterations = Ok (r, sv') ->
  (forall i e, history r !! i = Some e ->
     h_iteration e = (Z.of_nat i + 1)%Z
     /\ h_min_value e <= h_max_value e)
  /\ (exists e, last (history r) = Some e /\ h_delta e = final_delta r).
Proof.
  intros Hret. unfold value_iteration in Hret.
  destruct (vi_loop epsilon (range max_iterations) _) as [st|err] eqn:Hloop;
    [|discriminate].
  rewrite bind_Ok in Hret.
  destruct (vi_loop_history _ _ _ _ Hloop) as (new & Hh & Hall & Hlast).
  simpl in Hh.
  destruct (l_delta st) as [delta|] eqn:Hd; [|discriminate].
  destruct (l_iteration st) as [iteration|]; [|discriminate].
  cbn [local] in Hret. rewrite !bind_Ok in Hret. injection Hret as <- <-.
  cbn [history final_delta]. rewrite Hh. split.
  - intros i e Hi. destruct (Hall i e Hi) as [Hit Hmm]. split; [|done].
    unfold range in Hit. apply lookup_seqZ in Hit. lia.
  - destruct (decide (range max_iterations = [])) as [Hnil|Hne].
    + rewrite Hnil in Hloop. simpl in Hloop. injection Hloop as <-.
      discriminate.
    + destruct (Hlast Hne) as (e & He & Hde). exists e. split; [done|].
      congruence.
Qed.

Lemma value_iteration_history_witness :
  exists r sv',
    value_iteration (zeroed known_value_config) (1 / 100) 1000 = Ok (r, sv')
    /\ (forall i e, history r !! i = Some e ->
          h_iteration e = (Z.of_nat i + 1)%Z
          /\ h_min_value e <= h_max_value e)
    /\ (exists e, last (history r) = Some e /\ h_delta e = final_delta r).
Proof.
  assert (Hwf : solver_wf (zeroed known_value_config)) by wf_by_evaluation.
  destruct (value_iteration_runs (zeroed known_value_config) (1 / 100) 1000
              Hwf ltac:(lia))
    as (k & delta & svk & r & sv' & Hrun & _).
  exists r, sv'. split; [exact Hrun|].
  exact (value_iteration_history (zeroed known_value_config) (1 / 100) 1000
           r sv' Hrun).
Defined.

(** ** Simulated episodes *)

Lemma episode_loop_snoc {S A : Type} (l : list A) (x : A)
    (body : S -> A -> outcome S) (s : S) :
  episode_loop (l ++ [x]) body s = (s' ← episode_loop l body s; body s' x).
Proof.
  revert s. induction l as [|y l IH]; intros s; simpl.
  - destruct (body s x); reflexivity.
  - destruct (body s y) as [s'|e]; simpl; [apply IH|reflexivity].
Qed.

Lemma reward_sum_snoc (tr : list step_record) (e : step_record) :
  reward_sum (tr ++ [e]) = reward_sum tr + t_reward e.
Proof.
  induction tr as [|x tr IH]; simpl; [lra|].
  unfold reward_sum in *. simpl. rewrite IH. lra.
Qed.

Lemma episode_step_ok (sv : solver) (normal : nat -> R) (mode : string)
    (cost : Z) (tr : list step_record) (state : Z) (total : R) (i : nat) :
  solver_wf sv ->
  0 <= demand_std (conf sv) ->
  (0 <= state <= max_inventory (conf sv))%Z ->
  transport_costs !! mode = Some cost ->
  exists e,
    episode_step sv normal mode (tr, state, total) (Z.of_nat i)
    = Done (tr ++ [e], t_next_state e, total + t_reward e)
    /\ t_state e = state
    /\ step_consistent sv normal mode cost i e
    /\ (0 <= t_next_state e <= max_inventory (conf sv))%Z.
Proof.
  intros Hwf Hsd Hs Hmode. unfold episode_step, np_random_normal.
  rewrite getitem_in_range by (rewrite (wf_policy _ Hwf); lia).
  rewrite decide_False by lra.
  unfold dict_get. rewrite Hmode. cbn [lift]. rewrite Nat2Z.id.
  fold (policy_at (policy sv) state).
  set (action := policy_at (policy sv) state).
  set (demand := Z.max 0 (py_int (normal i))).
  exists {| t_step := Z.of_nat i; t_state := state; t_action := action;
            t_demand := demand;
            t_reward := immediate_reward (conf sv) state action demand;
            t_next_state := clamp (conf sv) (state + action - demand);
            t_transport_mode := mode; t_transport_cost := cost |}.
  split; [reflexivity|]. cbn.
  split; [reflexivity|]. split.
  - unfold step_consistent. cbn.
    split; [reflexivity|]. split; [exact Hs|]. split; [reflexivity|].
    split; [reflexivity|]. split; [reflexivity|]. split; [reflexivity|].
    split; reflexivity.
  - apply clamp_in_range. apply Hwf.
Qed.

Lemma episode_prefix (sv : solver) (normal : nat -> R) (mode : string)
    (cost : Z) (s0 : Z) (n : nat) :
  solver_wf sv ->
  0 <= demand_std (conf sv) ->
  (0 <= s0 <= max_inventory (conf sv))%Z ->
  transport_costs !! mode = Some cost ->
  exists tr state,
    episode_loop (range (Z.of_nat n)) (episode_step sv normal mode)
      ([], s0, 0)
    = Done (tr, state, 0 + reward_sum tr)
    /\ length tr = n
    /\ (0 <= state <= max_inventory (conf sv))%Z
    /\ state = match last tr with
               | Some e => t_next_state e
               | None => s0
               end
    /\ (forall i e, tr !! i = Some e -> step_consistent sv normal mode cost i e)
    /\ (forall e, tr !! 0%nat = Some e -> t_state e = s0)
    /\ (forall i e e', tr !! i = Some e -> tr !! S i = Some e' ->
          t_state e' = t_next_state e).
Proof.
  intros Hwf Hsd Hs0 Hmode. induction n as [|n IH].
  - exists [], s0. simpl. split; [by rewrite Rplus_0_r|].
    split; [done|]. split; [done|]. split; [done|].
    split; [intros i e Hi; by destruct i|].
    split; [intros e He; discriminate|]. intros i e e' Hi. by destruct i.
  - destruct IH as (tr & state & Hrun & Hlen & Hst & Hlast & Hall & Hfirst
                    & Hchain).
    rewrite Nat2Z.inj_succ, <- Z.add_1_r, range_snoc, episode_loop_snoc by lia.
    rewrite Hrun.
    destruct (episode_step_ok sv normal mode cost tr state
                (0 + reward_sum tr) n Hwf Hsd Hst Hmode)
      as (e & Hstep & Hes & Hcons & Hnext).
    change (Done (tr, state, 0 + reward_sum tr)
            ≫= (fun s' => episode_step sv normal mode s' (Z.of_nat n)))
      with (episode_step sv normal mode (tr, state, 0 + reward_sum tr)
              (Z.of_nat n)).
    rewrite Hstep. exists (tr ++ [e]), (t_next_state e).
    split; [by rewrite reward_sum_snoc, Rplus_assoc|].
    split; [rewrite length_app; simpl; lia|]. split; [done|].
    split; [by rewrite last_snoc|]. split; [|split].
    + intros i e' Hi. destruct (decide (i < length tr)%nat) as [Hlt|Hge].
      * rewrite lookup_app_l in Hi by done. by apply Hall.
      * rewrite lookup_app_r in Hi by lia.
        destruct (i - length tr)%nat as [|j] eqn:Hj; simpl in Hi;
          [|by destruct j].
        injection Hi as <-. replace i with n by lia. done.
    + intros e' He'. destruct tr as [|x tr'].
      * simpl in He'. injection He' as <-. rewrite Hes.
        simpl in Hlast. done.
      * simpl in He'. apply Hfirst. done.
    + intros i e1 e2 H1 H2.
      destruct (decide (S i < length tr)%nat) as [Hlt|Hge].
      * rewrite lookup_app_l in H1 by lia. rewrite lookup_app_l in H2 by lia.
        by apply (Hchain i).
      * assert (Hi2 : (S i < length (tr ++ [e]))%nat)
          by (by apply lookup_lt_Some in H2).
        rewrite length_app in Hi2. simpl in Hi2.
        assert (S i = length tr) as Hil by lia.
        rewrite lookup_app_l in H1 by lia.
        rewrite lookup_app_r in H2 by lia.
        replace (S i - length tr)%nat with 0%nat in H2 by lia.
        simpl in H2. injection H2 as <-. rewrite Hes, Hlast.
        assert (Hl : last tr = Some e1).
        { rewrite last_lookup. rewrite <- Hil. simpl. exact H1. }
        by rewrite Hl.
Qed.

Lemma simulate_episode_run (sv : solver) (normal : nat -> R)
    (initial_state steps : Z) (transport_mode : string) (cost : Z) :
  solver_wf sv ->
  0 <= demand_std (conf sv) ->
  (0 <= initial_state <= max_inventory (conf sv))%Z ->
  transport_costs !! transport_mode = Some cost ->
  (1 <= steps)%Z ->
  exists ep,
    simulate_episode sv normal initial_state steps transport_mode = Done ep
    /\ length (trajectory ep) = Z.to_nat steps
    /\ (forall i e, trajectory ep !! i = Some e ->
          step_consistent sv normal transport_mode cost i e
          /\ (0 <= t_next_state e <= max_inventory (conf sv))%Z)
    /\ (forall e, trajectory ep !! 0%nat = Some e -> t_state e = initial_state)
    /\ (forall i e e', trajectory ep !! i = Some e ->
          trajectory ep !! S i = Some e' -> t_state e' = t_next_state e)
    /\ total_reward ep = reward_sum (trajectory ep)
    /\ average_reward ep = total_reward ep / IZR steps.
Proof.
  intros Hwf Hsd Hs0 Hmode Hsteps.
  destruct (episode_prefix sv normal transport_mode cost initial_state
              (Z.to_nat steps) Hwf Hsd Hs0 Hmode)
    as (tr & state & Hrun & Hlen & _ & _ & Hall & Hfirst & Hchain).
  rewrite Z2Nat.id in Hrun by lia.
  unfold simulate_episode. rewrite Hrun.
  change (Done (tr, state, 0 + reward_sum tr) ≫= ?f)
    with (f (tr, state, 0 + reward_sum tr)).
  cbv beta iota. rewrite decide_False by lia.
  eexists. split; [reflexivity|]. cbn.
  split; [done|]. split.
  { intros i e Hi. pose proof (Hall i e Hi) as Hc. split; [done|].
    destruct Hc as (_ & _ & _ & _ & _ & -> & _).
    apply clamp_in_range. apply Hwf. }
  split; [done|]. split; [done|]. split; [|reflexivity].
  fold (reward_sum tr). lra.
Qed.

(** X15.  With [demand_std >= 0], an episode from a valid initial state with
    a known transport mode and at least one step returns a trajectory of
    exactly [steps] entries.
    Entry [i] carries step number [i], a state of the state space, the action
    of the policy at that state, the [i]-th drawn demand (truncated, floored
    at 0), the reward and the clamped next state; the first state is the
    initial one and each later state is the next state of the entry before.
    [total_reward] is the sum of the entries' rewards and [average_reward]
    that sum divided by [steps]. *)
Theorem simulate_episode_trajectory (sv : solver) (normal : nat -> R)
    (initial_state steps : Z) (transport_mode : string) (cost : Z) :
  solver_wf sv ->
  0 <= demand_std (conf sv) ->
  (0 <= initial_state <= max_inventory (conf sv))%Z ->
  transport_costs !! transport_mode = Some cost ->
  (1 <= steps)%Z ->
  exists ep,
    simulate_episode sv normal initial_state steps transport_mode = Done ep
    /\ length (trajectory ep) = Z.to_nat steps
    /\ (forall i e, trajectory ep !! i = Some e ->
          step_consistent sv normal transport_mode cost i e
          /\ (0 <= t_next_state e <= max_inventory (conf sv))%Z)
    /\ (forall e, trajectory ep !! 0%nat = Some e -> t_state e = initial_state)
    /\ (forall i e e', trajectory ep !! i = Some e ->
          trajectory ep !! S i = Some e' -> t_state e' = t_next_state e)
    /\ total_reward ep = reward_sum (trajectory ep)
    /\ average_reward ep = total_reward ep / IZR steps.
Proof. apply simulate_episode_run. Qed.

Lemma simulate_episode_trajectory_witness :
  exists ep,
    simulate_episode order_up_to_five (fun _ => 5) 3 30 "truck" = Done ep
    /\ length (trajectory ep) = Z.to_nat 30
    /\ (forall i e, trajectory ep !! i = Some e ->
          step_consistent order_up_to_five (fun _ => 5) "truck" 100 i e
          /\ (0 <= t_next_state e <= max_inventory (conf order_up_to_five))%Z)
    /\ (forall e, trajectory ep !! 0%nat = Some e -> t_state e = 3%Z)
    /\ (forall i e e', trajectory ep !! i = Some e ->
          trajectory ep !! S i = Some e' -> t_state e' = t_next_state e)
    /\ total_reward ep = reward_sum (trajectory ep)
    /\ average_reward ep = total_reward ep / IZR 30.
Proof.
  apply (simulate_episode_trajectory order_up_to_five (fun _ => 5) 3 30
           "truck" 100).
  - wf_by_evaluation.
  - simpl. lra.
  - simpl. lia.
  - reflexivity.
  - lia.
Defined.

(** X16.  An episode of no step.  With [steps = 0] the average divides by
    zero and [simulate_episode] raises [ZeroDivisionError]; with a negative
    [steps] it returns an empty trajectory with total and average reward 0.
    Neither the initial state nor the transport mode is looked at. *)
Theorem simulate_episode_no_step (sv : solver) (normal : nat -> R)
    (initial_state steps : Z) (transport_mode : string) :
  (steps <= 0)%Z ->
  simulate_episode sv normal initial_state steps transport_mode
  = if decide (steps = 0)%Z then Fail ZeroDivisionError
    else Done {| trajectory := []; total_reward := 0; average_reward := 0 |}.
Proof.
  intros Hsteps. unfold simulate_episode, range.
  rewrite seqZ_nil by lia. cbn [episode_loop].
  change (Done ([] : list step_record, initial_state, 0) ≫= ?f)
    with (f ([] : list step_record, initial_state, 0)).
  cbv beta iota. destruct (decide (steps = 0)%Z); [reflexivity|].
  do 2 f_equal. unfold Rdiv. apply Rmult_0_l.
Qed.

Lemma simulate_episode_no_step_witness :
  simulate_episode order_up_to_five (fun _ => 5) 3 0 "truck"
  = Fail ZeroDivisionError.
Proof.
  apply (simulate_episode_no_step order_up_to_five (fun _ => 5) 3 0 "truck").
  lia.
Defined.

Lemma transport_costs_unknown (mode : string) :
  mode <> "truck"%string -> mode <> "ship"%string ->
  mode <> "rail"%string -> mode <> "air"%string ->
  transport_costs !! mode = None.
Proof.
  intros H1 H2 H3 H4. unfold transport_costs. simpl.
  rewrite !lookup_insert_ne by done. apply lookup_empty.
Qed.

Lemma episode_step_unknown_mode (sv : solver) (normal : nat -> R)
    (mode : string) (tr : list step_record) (state : Z) (total : R)
    (step : Z) :
  solver_wf sv ->
  0 <= demand_std (conf sv) ->
  (0 <= state <= max_inventory (conf sv))%Z ->
  transport_costs !! mode = None ->
  episode_step sv normal mode (tr, state, total) step = Fail KeyError.
Proof.
  intros Hwf Hsd Hs Hmode. unfold episode_step, np_random_normal.
  rewrite getitem_in_range by (rewrite (wf_policy _ Hwf); lia).
  rewrite decide_False by lra.
  unfold dict_get. by rewrite Hmode.
Qed.

(** X17.  With [demand_std >= 0], an episode of at least one step from a
    valid initial state with a transport mode other than [truck], [ship],
    [rail] and [air] raises [KeyError]. *)
Theorem simulate_episode_unknown_mode (sv : solver) (normal : nat -> R)
    (initial_state steps : Z) (transport_mode : string) :
  solver_wf sv ->
  0 <= demand_std (conf sv) ->
  (0 <= initial_state <= max_inventory (conf sv))%Z ->
  (1 <= steps)%Z ->
  transport_mode <> "truck"%string -> transport_mode <> "ship"%string ->
  transport_mode <> "rail"%string -> transport_mode <> "air"%string ->
  simulate_episode sv normal initial_state steps transport_mode
  = Fail KeyError.
Proof.
  intros Hwf Hsd Hs0 Hsteps H1 H2 H3 H4.
  unfold simulate_episode, range. rewrite seqZ_cons by lia.
  cbn [episode_loop].
  by rewrite episode_step_unknown_mode
    by (done || by apply transport_costs_unknown).
Qed.

Lemma simulate_episode_unknown_mode_witness :
  simulate_episode order_up_to_five (fun _ => 5) 3 30 "barge" = Fail KeyError.
Proof.
  apply (simulate_episode_unknown_mode order_up_to_five (fun _ => 5) 3 30
           "barge").
  - wf_by_evaluation.
  - simpl. lra.
  - simpl. lia.
  - lia.
  - discriminate.
  - discriminate.
  - discriminate.
  - discriminate.
Defined.

Lemma getitem_out_of_range_raises {A : Type} (a : list A) (i : Z) :
  (Z.of_nat (length a) <= i \/ i < - Z.of_nat (length a))%Z ->
  getitem a i = Raise IndexError.
Proof.
  intros Hi. unfold getitem, np_index.
  rewrite decide_False by lia. by rewrite decide_False by lia.
Qed.

Lemma episode_step_bad_state (sv : solver) (normal : nat -> R)
    (mode : string) (tr : list step_record) (state : Z) (total : R)
    (step : Z) :
  (Z.of_nat (length (policy sv)) <= state
   \/ state < - Z.of_nat (length (policy sv)))%Z ->
  episode_step sv normal mode (tr, state, total) step
  = Fail (SolverError IndexError).
Proof.
  intros Hs. unfold episode_step.
  by rewrite getitem_out_of_range_raises.
Qed.

(** X18.  An episode of at least one step from an initial state above the
    capacity, or below [-(max_inventory + 1)], raises [IndexError] at the
    first look into the policy table, whatever the transport mode. *)
Theorem simulate_episode_bad_initial_state (sv : solver) (normal : nat -> R)
    (initial_state steps : Z) (transport_mode : string) :
  solver_wf sv ->
  (1 <= steps)%Z ->
  (max_inventory (conf sv) < initial_state
   \/ initial_state < - (max_inventory (conf sv) + 1))%Z ->
  simulate_episode sv normal initial_state steps transport_mode
  = Fail (SolverError IndexError).
Proof.
  intros Hwf Hsteps Hs0. pose proof (wf_capacity _ Hwf) as HM.
  unfold simulate_episode, range. rewrite seqZ_cons by lia.
  cbn [episode_loop]. rewrite episode_step_bad_state; [reflexivity|].
  rewrite (wf_policy _ Hwf). lia.
Qed.

Lemma simulate_episode_bad_initial_state_witness :
  simulate_episode order_up_to_five (fun _ => 5) 11 30 "truck"
  = Fail (SolverError IndexError).
Proof.
  apply (simulate_episode_bad_initial_state order_up_to_five (fun _ => 5)
           11 30 "truck").
  - wf_by_evaluation.
  - lia.
  - left. simpl. lia.
Defined.

(** X19.  Solving, then simulating.  With [demand_std >= 0], on the solver
    a return of [value_iteration] leaves, an episode from a valid initial
    state with a known transport mode and at least one step succeeds, and no
    entry orders
    beyond the capacity: [0 <= action], [state + action <= max_inventory]
    and [0 <= demand]. *)
Theorem simulate_episode_after_value_iteration (sv : solver) (epsilon : R)
    (max_iterations : Z) (r : convergence) (sv' : solver) (normal : nat -> R)
    (initial_state steps : Z) (transport_mode : string) (cost : Z) :
  solver_wf sv ->
  0 <= demand_std (conf sv) ->
  value_iteration sv epsilon max_iterations = Ok (r, sv') ->
  (0 <= initial_state <= max_inventory (conf sv))%Z ->
  transport_costs !! transport_mode = Some cost ->
  (1 <= steps)%Z ->
  exists ep,
    simulate_episode sv' normal initial_state steps transport_mode = Done ep
    /\ length (trajectory ep) = Z.to_nat steps
    /\ (forall i e, trajectory ep !! i = Some e ->
          (0 <= t_action e)%Z
          /\ (t_state e + t_action e <= max_inventory (conf sv))%Z
          /\ (0 <= t_demand e)%Z).
Proof.
  intros Hwf Hsd Hret Hs0 Hmode Hsteps.
  destruct (Z_le_gt_dec max_iterations 0) as [Hle|Hgt].
  { rewrite value_iteration_no_iteration in Hret by done. discriminate. }
  destruct (value_iteration_runs sv epsilon max_iterations Hwf ltac:(lia))
    as (k & delta & svk & r' & sv'' & Hrun & _ & _ & _ & Hwf' & Hc & Hpol & _).
  rewrite Hrun in Hret. injection Hret as <- <-.
  destruct (simulate_episode_run sv'' normal initial_state steps
              transport_mode cost Hwf' ltac:(by rewrite Hc)
              ltac:(by rewrite Hc) Hmode Hsteps)
    as (ep & Hep & Hlen & Hall & _).
  exists ep. split; [done|]. split; [done|].
  intros i e Hi. destruct (Hall i e Hi) as [Hcons _].
  destruct Hcons as (_ & Hst & Ha & Hd & _).
  pose proof (Hpol _ Hst) as Hf. rewrite Hc in Hf. rewrite Ha, Hd. lia.
Qed.

Lemma simulate_episode_after_value_iteration_witness :
  exists r sv',
    value_iteration (zeroed known_value_config) (1 / 100) 1000 = Ok (r, sv')
    /\ exists ep,
         simulate_episode sv' (fun _ => 5) 3 30 "truck" = Done ep
         /\ length (trajectory ep) = Z.to_nat 30
         /\ (forall i e, trajectory ep !! i = Some e ->
               (0 <= t_action e)%Z
               /\ (t_state e + t_action e
                   <= max_inventory (conf (zeroed known_value_config)))%Z
               /\ (0 <= t_demand e)%Z).
Proof.
  assert (Hwf : solver_wf (zeroed known_value_config)) by wf_by_evaluation.
  destruct (value_iteration_runs (zeroed known_value_config) (1 / 100) 1000
              Hwf ltac:(lia))
    as (k & delta & svk & r & sv' & Hrun & _).
  exists r, sv'. split; [exact Hrun|].
  apply (simulate_episode_after_value_iteration (zeroed known_value_config)
           (1 / 100) 1000 r sv' (fun _ => 5) 3 30 "truck" 100 Hwf).
  - simpl. lra.
  - exact Hrun.
  - simpl. lia.
  - reflexivity.
  - lia.
Defined.

(** ** Convergence of value iteration *)

Lemma demand_mass_nonneg (c : config) : 0 < demand_std c -> 0 <= demand_mass c.
Proof.
  intros Hsd. apply sum_over_nonneg. intros d _.
  by apply demand_probability_nonneg.
Qed.

Lemma sweep_delta_contraction (c : config) (sv : solver) (d1 : R)
    (sv1 : solver) (d2 : R) (sv2 : solver) :
  solver_wf sv ->
  conf sv = c ->
  0 < demand_std c ->
  0 <= gamma c ->
  gamma c * demand_mass c <= 1 ->
  sweep sv = Ok (d1, sv1) ->
  sweep sv1 = Ok (d2, sv2) ->
  d2 <= gamma c * demand_mass c * d1.
Proof.
  intros Hwf Hconf Hsd Hg HL Hsw1 Hsw2.
  pose proof (wf_capacity _ Hwf) as HM.
  pose proof (demand_mass_nonneg c Hsd) as Hmass.
  set (L := gamma c * demand_mass c) in *.
  assert (HL0 : 0 <= L) by (by apply Rmult_le_pos).
  (* the first sweep *)
  destruct (sweep_ok sv Hwf)
    as (d & sv' & Hrun & Hwf1 & Hc1 & _ & Hd0 & Hdmax & _).
  rewrite Hsw1 in Hrun. injection Hrun as <- <-.
  destruct (sweep_in_place_spec sv Hwf) as (d & sv' & Hrun & Hgs1).
  rewrite Hsw1 in Hrun. injection Hrun as <- <-.
  (* the second sweep *)
  destruct (sweep_ok sv1 Hwf1)
    as (d & sv' & Hrun & _ & _ & _ & _ & _ & Hdwit).
  rewrite Hsw2 in Hrun. injection Hrun as <- <-.
  destruct (sweep_in_place_spec sv1 Hwf1) as (d & sv' & Hrun & Hgs2).
  rewrite Hsw2 in Hrun. injection Hrun as <- <-.
  rewrite Hc1 in *. rewrite Hconf in *.
  set (V0 := value_function sv) in *. set (V1 := value_function sv1) in *.
  set (V2 := value_function sv2) in *.
  assert (Hall : forall n : nat, forall s,
            (0 <= s < Z.of_nat n)%Z -> (s <= max_inventory c)%Z ->
            Rabs (value_at V1 s - value_at V2 s) <= L * d1).
  { induction n as [|n IH]; intros s Hs HsM; [lia|].
    destruct (decide (s < Z.of_nat n)%Z) as [Hlt|Hge]; [by apply IH; lia|].
    assert (s = Z.of_nat n) as -> by lia. clear Hs Hge.
    destruct (Hgs1 (Z.of_nat n) ltac:(lia)) as (Hv1 & Ha1 & Hmax1 & _).
    destruct (Hgs2 (Z.of_nat n) ltac:(lia)) as (Hv2 & Ha2 & Hmax2 & _).
    cbv zeta in *.
    set (W1 := in_place_table V0 V1 (Z.of_nat n)) in *.
    set (W2 := in_place_table V1 V2 (Z.of_nat n)) in *.
    assert (HW : forall s', (0 <= s' <= max_inventory c)%Z ->
              Rabs (W1 s' - W2 s') <= d1).
    { intros s' Hs'. unfold W1, W2, in_place_table.
      destruct (decide (s' < Z.of_nat n)%Z) as [Hb|Hb].
      - apply Rle_trans with (L * d1); [apply IH; lia|]. nra.
      - apply Hdmax. lia. }
    assert (HQ : forall a,
              Rabs (q_value c W1 (Z.of_nat n) a - q_value c W2 (Z.of_nat n) a)
              <= L * d1).
    { intros a. by apply q_value_abs_diff. }
    set (a1 := policy_at (policy sv1) (Z.of_nat n)) in *.
    set (a2 := policy_at (policy sv2) (Z.of_nat n)) in *.
    pose proof (Rabs_le_bounds _ _ (HQ a1)) as H1.
    pose proof (Rabs_le_bounds _ _ (HQ a2)) as H2.
    pose proof (Hmax1 a2 Ha2) as H3. pose proof (Hmax2 a1 Ha1) as H4.
    rewrite Hv1 at 1. rewrite Hv2 at 1. rewrite Hv1 in H3. rewrite Hv2 in H4.
    apply Rabs_le. lra. }
  destruct Hdwit as [->|(s & Hs & ->)]; [nra|].
  apply (Hall (Z.to_nat (max_inventory c + 1))); lia.
Qed.

(** X20.  Successive sweeps contract: when [gamma * demand_mass <= 1]
    ([gamma >= 0], [demand_std > 0]), the [delta] of a sweep is at most
    [gamma * demand_mass] times the [delta] of the sweep before it. *)
Theorem sweep_delta_contracts (sv : solver) (d1 : R) (sv1 : solver)
    (d2 : R) (sv2 : solver) :
  solver_wf sv ->
  0 < demand_std (conf sv) ->
  0 <= gamma (conf sv) ->
  gamma (conf sv) * demand_mass (conf sv) <= 1 ->
  sweep sv = Ok (d1, sv1) ->
  sweep sv1 = Ok (d2, sv2) ->
  d2 <= gamma (conf sv) * demand_mass (conf sv) * d1.
Proof. intros Hwf. by apply sweep_delta_contraction. Qed.

Lemma sum_over_le_const (f : Z -> R) (l : list Z) (k : R) :
  (forall d, d ∈ l -> f d <= k) -> sum_over l f <= INR (length l) * k.
Proof.
  induction l as [|d l IH]; intros Hf.
  - simpl. lra.
  - assert (f d <= k) by (apply Hf; left).
    assert (sum_over l f <= INR (length l) * k)
      by (apply IH; intros; apply Hf; by right).
    change (sum_over (d :: l) f) with (f d + sum_over l f).
    change (length (d :: l)) with (S (length l)). rewrite S_INR. lra.
Qed.

Lemma demand_probability_le_peak (c : config) (d : Z) :
  0 < demand_std c ->
  demand_probability c d <= / (sqrt (2 * PI) * demand_std c).
Proof.
  intros Hsd. unfold demand_probability. pose proof sqrt_2PI_pos.
  destruct (decide (d < 0)%Z).
  - left. apply Rinv_0_lt_compat. nra.
  - by apply norm_pdf_bounds.
Qed.

Lemma sqrt_2PI_gt_2 : 2 < sqrt (2 * PI).
Proof.
  rewrite <- (sqrt_square 2) at 1 by lra.
  apply sqrt_lt_1; pose proof PI2_3_2; lra.
Qed.

Lemma max_demand_discounted : max_demand discounted_config = 22%Z.
Proof. unfold max_demand. simpl. apply py_int_between; [lia|lra]. Qed.

(** With the default demand the mass on the truncated support is below 4,
    so a discount factor of 1/4 makes the sweeps contract. *)
Lemma discounted_config_contracts :
  gamma discounted_config * demand_mass discounted_config <= 23 / 24.
Proof.
  assert (Hsd : 0 < demand_std discounted_config) by (simpl; lra).
  assert (Hpeak : / (sqrt (2 * PI) * demand_std discounted_config) <= / 6).
  { apply Rinv_le_contravar; [lra|]. pose proof sqrt_2PI_gt_2. simpl. lra. }
  assert (Hm : demand_mass discounted_config <= INR 23 * / 6).
  { unfold demand_mass. rewrite max_demand_discounted.
    change 23%nat with (length (range (22 + 1))).
    apply sum_over_le_const. intros d _.
    pose proof (demand_probability_le_peak discounted_config d Hsd). lra. }
  replace (INR 23) with 23 in Hm by (simpl; lra). simpl. lra.
Qed.

Lemma sweep_delta_contracts_witness :
  exists d1 sv1 d2 sv2,
    sweep (zeroed discounted_config) = Ok (d1, sv1)
    /\ sweep sv1 = Ok (d2, sv2)
    /\ d2 <= gamma discounted_config * demand_mass discounted_config * d1.
Proof.
  assert (Hwf : solver_wf (zeroed discounted_config)) by wf_by_evaluation.
  destruct (sweep_ok _ Hwf) as (d1 & sv1 & Hsw1 & Hwf1 & _).
  destruct (sweep_ok _ Hwf1) as (d2 & sv2 & Hsw2 & _).
  exists d1, sv1, d2, sv2. split; [exact Hsw1|]. split; [exact Hsw2|].
  apply (sweep_delta_contracts (zeroed discounted_config) d1 sv1 d2 sv2 Hwf).
  - simpl. lra.
  - simpl. lra.
  - pose proof discounted_config_contracts as H. simpl in *. lra.
  - exact Hsw1.
  - exact Hsw2.
Defined.

(** The deltas of successive sweeps decrease geometrically. *)
Lemma sweeps_delta_geometric (c : config) (k : nat) :
  0 < demand_std c ->
  0 <= gamma c ->
  gamma c * demand_mass c <= 1 ->
  forall sv d0 sv0 svk dk svk',
    solver_wf sv ->
    conf sv = c ->
    sweep sv = Ok (d0, sv0) ->
    sweeps k sv = Ok svk ->
    sweep svk = Ok (dk, svk') ->
    dk <= (gamma c * demand_mass c) ^ k * d0.
Proof.
  intros Hsd Hg HL. pose proof (demand_mass_nonneg c Hsd) as Hmass.
  assert (HL0 : 0 <= gamma c * demand_mass c) by (by apply Rmult_le_pos).
  induction k as [|k IH]; intros sv d0 sv0 svk dk svk' Hwf Hc Hsw0 Hk Hswk.
  - simpl in Hk. injection Hk as <-. rewrite Hsw0 in Hswk.
    injection Hswk as <- _. simpl. lra.
  - simpl in Hk. rewrite Hsw0, bind_Ok in Hk.
    destruct (sweep_ok sv Hwf) as (d & sv' & Hrun & Hwf0 & Hc0 & _).
    rewrite Hsw0 in Hrun. injection Hrun as <- <-.
    destruct (sweep_ok sv0 Hwf0) as (d1 & sv1 & Hsw1 & _).
    pose proof (IH sv0 d1 sv1 svk dk svk' Hwf0 ltac:(congruence) Hsw1 Hk Hswk)
      as Hgeo.
    pose proof (sweep_delta_contraction c sv d0 sv0 d1 sv1 Hwf Hc Hsd Hg HL
                  Hsw0 Hsw1) as Hcon.
    pose proof (pow_le _ k HL0) as Hpow.
    simpl. nra.
Qed.

(** X21.  Value iteration converges.  When [gamma * demand_mass < 1]
    ([gamma >= 0], [demand_std > 0]) and [epsilon > 0], there is a number of
    iterations from which on [value_iteration] on a well-shaped solver
    returns with [converged = true] and [final_delta < epsilon]. *)
Theorem value_iteration_converges (sv : solver) (epsilon : R) :
  solver_wf sv ->
  0 < demand_std (conf sv) ->
  0 <= gamma (conf sv) ->
  gamma (conf sv) * demand_mass (conf sv) < 1 ->
  0 < epsilon ->
  exists N : Z,
    forall max_iterations, (N <= max_iterations)%Z ->
      exists r sv',
        value_iteration sv epsilon max_iterations = Ok (r, sv')
        /\ converged r = true
        /\ final_delta r < epsilon.
Proof.
  intros Hwf Hsd Hg HL Heps.
  set (L := gamma (conf sv) * demand_mass (conf sv)) in *.
  pose proof (demand_mass_nonneg _ Hsd) as Hmass.
  assert (HL0 : 0 <= L) by (by apply Rmult_le_pos).
  destruct (sweep_ok sv Hwf) as (d0 & sv0 & Hsw0 & _ & _ & _ & Hd0 & _).
  destruct (pow_lt_1_zero L ltac:(rewrite Rabs_right; lra)
              (epsilon / (d0 + 1)) ltac:(apply Rdiv_lt_0_compat; lra))
    as (N0 & HN0).
  exists (Z.of_nat N0 + 1)%Z. intros n Hn.
  destruct (value_iteration_runs sv epsilon n Hwf ltac:(lia))
    as (k & delta & svk & r & sv' & Hrun & Hk & Hsws & Hlast & _ & _ & _ & _
        & Hfd & Hconv & Hstop & _).
  exists r, sv'. split; [exact Hrun|]. rewrite Hfd, Hconv.
  destruct (bool_decide_reflect (delta < epsilon)) as [Hlt|Hge]; [done|].
  exfalso. apply Hge.
  assert (Hkn : Z.of_nat (S k) = n) by (apply Hstop; exact Hconv).
  pose proof (sweeps_delta_geometric (conf sv) k Hsd Hg ltac:(fold L; lra)
                sv d0 sv0 svk delta sv' Hwf eq_refl Hsw0 Hsws Hlast) as Hgeo.
  fold L in Hgeo.
  pose proof (HN0 k ltac:(lia)) as Hsmall.
  pose proof (pow_le _ k HL0) as Hpow.
  rewrite Rabs_right in Hsmall by lra.
  assert (Hfrac : epsilon / (d0 + 1) * (d0 + 1) = epsilon) by (field; lra).
  assert (Hprod : L ^ k * (d0 + 1) < epsilon).
  { rewrite <- Hfrac. apply Rmult_lt_compat_r; lra. }
  nra.
Qed.

Lemma value_iteration_converges_witness :
  exists N : Z,
    forall max_iterations, (N <= max_iterations)%Z ->
      exists r sv',
        value_iteration (zeroed discounted_config) (1 / 100) max_iterations
        = Ok (r, sv')
        /\ converged r = true
        /\ final_delta r < 1 / 100.
Proof.
  apply (value_iteration_converges (zeroed discounted_config) (1 / 100)).
  - wf_by_evaluation.
  - simpl. lra.
  - simpl. lra.
  - pose proof discounted_config_contracts as H. simpl in *. lra.
  - lra.
Defined.

(** ** A negative standard deviation *)

Lemma episode_step_negative_std (sv : solver) (normal : nat -> R)
    (mode : string) (tr : list step_record) (state : Z) (total : R)
    (step : Z) :
  solver_wf sv ->
  demand_std (conf sv) < 0 ->
  (0 <= state <= max_inventory (conf sv))%Z ->
  episode_step sv normal mode (tr, state, total) step
  = Fail (SolverError ValueError).
Proof.
  intros Hwf Hsd Hs. unfold episode_step, np_random_normal.
  rewrite getitem_in_range by (rewrite (wf_policy _ Hwf); lia).
  by rewrite decide_True.
Qed.

(** X22.  With a negative [demand_std], an episode of at least one step from
    a valid initial state raises [ValueError] at the first draw of the
    demand, whatever the transport mode: the draw comes before the look into
    the transport dictionary. *)
Theorem simulate_episode_negative_std (sv : solver) (normal : nat -> R)
    (initial_state steps : Z) (transport_mode : string) :
  solver_wf sv ->
  demand_std (conf sv) < 0 ->
  (0 <= initial_state <= max_inventory (conf sv))%Z ->
  (1 <= steps)%Z ->
  simulate_episode sv normal initial_state steps transport_mode
  = Fail (SolverError ValueError).
Proof.
  intros Hwf Hsd Hs0 Hsteps.
  unfold simulate_episode, range. rewrite seqZ_cons by lia.
  cbn [episode_loop]. by rewrite episode_step_negative_std.
Qed.

Lemma simulate_episode_negative_std_witness :
  simulate_episode (zeroed negative_std_config) (fun _ => 5) 3 30 "barge"
  = Fail (SolverError ValueError).
Proof.
  apply (simulate_episode_negative_std (zeroed negative_std_config)
           (fun _ => 5) 3 30 "barge").
  - wf_by_evaluation.
  - simpl. lra.
  - simpl. lia.
  - lia.
Defined.
